(** * V5.Native: vectorised byte-column predicate scan and bitmap count

    A shallow embedding of [CompareToVector.cpp] (the [Where] template and
    its exported wrappers) and of [IndexSetN.cpp]
    ([AndWhereGreaterThanInternal], [CountInternal] and the managed entry
    points), followed by the properties established about them.

    Conventions.
    - C integers are [Z]; every conversion between widths is written out
      with [to_uint8], [to_int8], [to_uint32], [to_int32], [to_uint64],
      [to_int64].
    - A [__m256i] register is the list of its 32 byte lanes, lane 0 first
      (lowest address), each lane held as its unsigned byte pattern.
    - The column buffer [set] is a [list Z] of bytes; it is only read.
    - The bitmap [matchVector] is the mutable store: a [list Z] of 64-bit
      words threaded through the monad [M].  An access outside a buffer is
      undefined behaviour in the source and makes the computation [None].
    - The [int] loop counters never exceed the row count they are compared
      with, so no wrap-around is written on them; the one [int] product
      that can wrap, in [IndexSetN.AndWhereGreaterThan], is wrapped.
    - Loops take fuel; running out of it is [None] as well, and the
      properties below show that the fuel given always suffices. *)

From Stdlib Require Import ZArith Lia Bool List.
From stdpp Require Import base option list.

Local Open Scope Z_scope.

(** ** Fixed-width integer conversions *)

Definition to_uint8 (x : Z) : Z := x mod 2 ^ 8.
Definition to_int8 (x : Z) : Z :=
  let u := x mod 2 ^ 8 in if u <? 2 ^ 7 then u else u - 2 ^ 8.
Definition to_uint32 (x : Z) : Z := x mod 2 ^ 32.
Definition to_int32 (x : Z) : Z :=
  let u := x mod 2 ^ 32 in if u <? 2 ^ 31 then u else u - 2 ^ 32.
Definition to_uint64 (x : Z) : Z := x mod 2 ^ 64.
Definition to_int64 (x : Z) : Z :=
  let u := x mod 2 ^ 64 in if u <? 2 ^ 63 then u else u - 2 ^ 64.

Definition INT_MAX : Z := 2 ^ 31 - 1.

(** [~x] on an [unsigned __int64]. *)
Definition not64 (x : Z) : Z := to_uint64 (Z.lnot x).

Definition is_byte (x : Z) : Prop := 0 <= x < 256.
Definition is_word64 (x : Z) : Prop := 0 <= x < 2 ^ 64.

(** ** The enumerations of CompareToVector.cpp *)

Module CompareOperatorN.
Inductive t : Set :=
| Equals | NotEquals | LessThan | LessThanOrEqual | GreaterThan | GreaterThanOrEqual.
End CompareOperatorN.

Module BooleanOperatorN.
Inductive t : Set := And | AndNot | Or.
End BooleanOperatorN.

Module SigningN.
Inductive t : Set := Unsigned | Signed.
End SigningN.

(** ** The store monad over the bitmap *)

Definition M (A : Type) : Type := list Z -> option (A * list Z).

Definition ret {A} (a : A) : M A := fun mv => Some (a, mv).
Definition bind {A B} (c : M A) (k : A -> M B) : M B :=
  fun mv => match c mv with
            | Some (a, mv') => k a mv'
            | None => None
            end.
(** Undefined behaviour, or a loop that was given too little fuel. *)
Definition undefined {A} : M A := fun _ => None.
Definition lift {A} (o : option A) : M A :=
  fun mv => match o with Some a => Some (a, mv) | None => None end.

Notation "x <- c1 ;; c2" := (bind c1 (fun x => c2))
  (at level 20, c1 at level 99, c2 at level 200, only parsing).
Notation "' pat <- c1 ;; c2" := (bind c1 (fun x => match x with pat => c2 end))
  (at level 20, pat pattern, c1 at level 99, c2 at level 200, only parsing).
Notation "c1 ;; c2" := (bind c1 (fun _ => c2))
  (at level 100, c2 at level 200, only parsing, right associativity).

(** [p[i]] for a buffer [p] read through a raw pointer. *)
Definition index (p : list Z) (i : Z) : option Z :=
  if 0 <=? i then p !! Z.to_nat i else None.

(** [matchVector[w]] as an rvalue. *)
Definition load (w : Z) : M Z := fun mv => lift (index mv w) mv.

(** [matchVector[w] = v]. *)
Definition store (w v : Z) : M unit :=
  fun mv => match index mv w with
            | Some _ => Some (tt, <[Z.to_nat w := v]> mv)
            | None => None
            end.

(** ** The intrinsics *)

Definition __m256i : Type := list Z.

Definition _mm256_set1_epi8 (a : Z) : __m256i := replicate 32 (to_uint8 a).

Definition _mm256_sub_epi8 (a b : __m256i) : __m256i :=
  zip_with (fun x y => to_uint8 (x - y)) a b.

Definition _mm256_cmpgt_epi8 (a b : __m256i) : __m256i :=
  zip_with (fun x y => if to_int8 x >? to_int8 y then 255 else 0) a b.

Definition _mm256_cmpeq_epi8 (a b : __m256i) : __m256i :=
  zip_with (fun x y => if to_uint8 x =? to_uint8 y then 255 else 0) a b.

(** Bit [j] of the mask is the top bit of lane [j]. *)
Fixpoint movemask_bits (a : list Z) : Z :=
  match a with
  | [] => 0
  | x :: a' => Z.b2z (Z.testbit x 7) + 2 * movemask_bits a'
  end.

(** The intrinsic returns [int]. *)
Definition _mm256_movemask_epi8 (a : __m256i) : Z := to_int32 (movemask_bits a).

(** Unaligned load of the 32 bytes at [&p[i]]. *)
Definition _mm256_loadu_si256 (p : list Z) (i : Z) : option __m256i :=
  if (0 <=? i) && (i + 32 <=? Z.of_nat (length p))
  then Some (take 32 (drop (Z.to_nat i) p))
  else None.

Fixpoint popcnt (n : nat) (x : Z) : Z :=
  match n with
  | O => 0
  | S n' => Z.b2z (Z.odd x) + popcnt n' (Z.div2 x)
  end.

Definition _mm_popcnt_u64 (x : Z) : Z := popcnt 64 x.

(** ** CompareToVector.cpp *)

Import CompareOperatorN BooleanOperatorN SigningN.

(** The [switch (bOp)] that merges a result word into the bitmap word
    holding row [i]. *)
Definition combine (bOp : BooleanOperatorN.t) (i result : Z) : M unit :=
  w <- load (Z.shiftr i 6) ;;
  match bOp with
  | And => store (Z.shiftr i 6) (Z.land w result)
  | Or => store (Z.shiftr i 6) (Z.lor w result)
  | AndNot => store (Z.shiftr i 6) (Z.land w (not64 result))
  end.

Section Where.
Variables (cOp : CompareOperatorN.t) (bOp : BooleanOperatorN.t) (sign : SigningN.t).
Variables (set : list Z) (len : Z) (value : Z).

Definition unsignedToSigned : __m256i := _mm256_set1_epi8 (-128).

Definition blockOfValue : __m256i :=
  let blockOfValue := _mm256_set1_epi8 value in
  match sign with
  | Unsigned => _mm256_sub_epi8 blockOfValue unsignedToSigned
  | Signed => blockOfValue
  end.

Definition blockLength : Z := len - Z.land len 63.

(** The 64-bit result of one iteration of the block loop, before the
    combinator is applied. *)
Definition block_result (i : Z) : option Z :=
  block1 ← _mm256_loadu_si256 set i;
  block2 ← _mm256_loadu_si256 set (i + 32);
  let block1 := match sign with
                | Unsigned => _mm256_sub_epi8 block1 unsignedToSigned
                | Signed => block1
                end in
  let block2 := match sign with
                | Unsigned => _mm256_sub_epi8 block2 unsignedToSigned
                | Signed => block2
                end in
  let '(matchMask1, matchMask2) :=
    match cOp with
    | GreaterThan | LessThanOrEqual =>
        (_mm256_cmpgt_epi8 block1 blockOfValue, _mm256_cmpgt_epi8 block2 blockOfValue)
    | LessThan | GreaterThanOrEqual =>
        (_mm256_cmpgt_epi8 blockOfValue block1, _mm256_cmpgt_epi8 blockOfValue block2)
    | Equals | NotEquals =>
        (_mm256_cmpeq_epi8 block1 blockOfValue, _mm256_cmpeq_epi8 block2 blockOfValue)
    end in
  let matchBits1 := to_uint32 (_mm256_movemask_epi8 matchMask1) in
  let matchBits2 := to_uint32 (_mm256_movemask_epi8 matchMask2) in
  let result := Z.lor (to_uint64 (Z.shiftl (to_uint64 matchBits2) 32)) matchBits1 in
  let result := match cOp with
                | LessThanOrEqual | GreaterThanOrEqual | NotEquals => not64 result
                | _ => result
                end in
  Some result.

(** [for (; i < blockLength; i += 64)]; yields the final [i]. *)
Fixpoint Where_blocks (fuel : nat) (i : Z) : M Z :=
  match fuel with
  | O => undefined
  | S fuel' =>
      if i <? blockLength then
        result <- lift (block_result i) ;;
        combine bOp i result ;;
        Where_blocks fuel' (i + 64)
      else ret i
  end.

(** The comparison of the tail's [switch (cOp)]: both operands are
    [unsigned __int8], whatever [sign] is. *)
Definition tail_compare (b : Z) : bool :=
  match cOp with
  | GreaterThan => b >? value
  | GreaterThanOrEqual => b >=? value
  | LessThan => b <? value
  | LessThanOrEqual => b <=? value
  | Equals => b =? value
  | NotEquals => negb (b =? value)
  end.

(** [for (; i < length; ++i)]; yields the final [i] and [result]. *)
Fixpoint Where_tail (fuel : nat) (i result : Z) : option (Z * Z) :=
  match fuel with
  | O => None
  | S fuel' =>
      if i <? len then
        b ← index set i;
        let result := if tail_compare b
                      then Z.lor result (Z.shiftl 1 (Z.land i 63))
                      else result in
        Where_tail fuel' (i + 1) result
      else Some (i, result)
  end.

Definition Where : M unit :=
  let fuel := S (Z.to_nat len) in
  i <- Where_blocks fuel 0 ;;
  if Z.land len 63 >? 0 then
    '(i, result) <- lift (Where_tail fuel i 0) ;;
    combine bOp i result
  else ret tt.
End Where.

Module CompareToVector.
Definition WhereGreaterThan (positive and : bool) (set : list Z) (length value : Z) : M unit :=
  Where GreaterThan And Unsigned set length value.

Definition WhereLessThan (positive and : bool) (set : list Z) (length value : Z) : M unit :=
  Where LessThan And Unsigned set length value.

Definition WhereEquals (positive and : bool) (set : list Z) (length value : Z) : M unit :=
  Where Equals And Unsigned set length value.
End CompareToVector.

(** ** IndexSetN.cpp *)

Section AndWhereGreaterThanInternal.
Variables (set : list Z) (len : Z) (value : Z).

Definition signedToUnsigned : __m256i := _mm256_set1_epi8 (-128).

Definition blockOfValue' : __m256i :=
  _mm256_sub_epi8 (_mm256_set1_epi8 value) signedToUnsigned.

Definition blockLength' : Z := len - Z.land len 63.

Definition block_result' (i : Z) : option Z :=
  block1 ← _mm256_loadu_si256 set i;
  let block1 := _mm256_sub_epi8 block1 signedToUnsigned in
  let matchMask1 := _mm256_cmpgt_epi8 block1 blockOfValue' in
  let matchBits1 := to_uint32 (_mm256_movemask_epi8 matchMask1) in
  block2 ← _mm256_loadu_si256 set (i + 32);
  let block2 := _mm256_sub_epi8 block2 signedToUnsigned in
  let matchMask2 := _mm256_cmpgt_epi8 block2 blockOfValue' in
  let matchBits2 := to_uint32 (_mm256_movemask_epi8 matchMask2) in
  let result := to_uint64 matchBits2 in
  let result := to_uint64 (Z.shiftl result 32) in
  let result := Z.lor result matchBits1 in
  Some result.

Fixpoint AndWhereGreaterThan_blocks (fuel : nat) (i : Z) : M Z :=
  match fuel with
  | O => undefined
  | S fuel' =>
      if i <? blockLength' then
        result <- lift (block_result' i) ;;
        w <- load (Z.shiftr i 6) ;;
        store (Z.shiftr i 6) (Z.land w result) ;;
        AndWhereGreaterThan_blocks fuel' (i + 64)
      else ret i
  end.

Fixpoint AndWhereGreaterThan_tail (fuel : nat) (i last : Z) : option Z :=
  match fuel with
  | O => None
  | S fuel' =>
      if i <? len then
        b ← index set i;
        let last := if b >? value
                    then Z.lor last (Z.shiftl (to_uint64 1) (Z.land i 63))
                    else last in
        AndWhereGreaterThan_tail fuel' (i + 1) last
      else Some last
  end.

Definition AndWhereGreaterThanInternal : M unit :=
  let fuel := S (Z.to_nat len) in
  i <- AndWhereGreaterThan_blocks fuel 0 ;;
  if Z.land len 63 >? 0 then
    last <- lift (AndWhereGreaterThan_tail fuel i 0) ;;
    w <- load (Z.shiftr len 6) ;;
    store (Z.shiftr len 6) (Z.land w last)
  else ret tt.
End AndWhereGreaterThanInternal.

(** [for (int i = 0; i < length; ++i) count += _mm_popcnt_u64(matchVector[i])]
    with [count] an [__int64]. *)
Fixpoint CountInternal_loop (length : Z) (fuel : nat) (i count : Z) : M Z :=
  match fuel with
  | O => undefined
  | S fuel' =>
      if i <? length then
        w <- load i ;;
        CountInternal_loop length fuel' (i + 1) (to_int64 (count + _mm_popcnt_u64 w))
      else ret count
  end.

Definition CountInternal (length : Z) : M Z :=
  count <- CountInternal_loop length (S (Z.to_nat length)) 0 0 ;;
  ret (to_int32 count).

(** What a call of a managed entry point can do: return, leaving the
    bitmap array in a given state, or raise the runtime's
    [IndexOutOfRangeException] (taking [&a[0]] of an empty managed array
    is a checked element access); [Undefined] stands for undefined
    behaviour inside the unmanaged callee. *)
Inductive outcome (A : Type) : Type :=
| Returned (a : A) (matchVector : list Z)
| IndexOutOfRangeException
| Undefined.
Arguments Returned {A} a matchVector.
Arguments IndexOutOfRangeException {A}.
Arguments Undefined {A}.

Definition run {A} (c : M A) (matchVector : list Z) : outcome A :=
  match c matchVector with
  | Some (a, mv') => Returned a mv'
  | None => Undefined
  end.

(** [array->Length] is an [int]. *)
Definition Length (a : list Z) : Z := Z.of_nat (length a).

Module IndexSetN.
Definition AndWhereGreaterThan (set : list Z) (value : Z) (matchVector : list Z)
  : outcome unit :=
  if to_int32 (Length matchVector * 64) <? Length set then Returned tt matchVector
  else
    match set !! 0%nat with
    | None => IndexOutOfRangeException
    | Some _ =>
        match matchVector !! 0%nat with
        | None => IndexOutOfRangeException
        | Some _ =>
            run (AndWhereGreaterThanInternal set (Length set) value) matchVector
        end
    end.

Definition Count (matchVector : list Z) : outcome Z :=
  match matchVector !! 0%nat with
  | None => IndexOutOfRangeException
  | Some _ => run (CountInternal (Length matchVector)) matchVector
  end.
End IndexSetN.

(** ** Reference notions used by the statements *)

(** Row [i] of a column buffer. *)
Definition row (set : list Z) (i : Z) : Z := set !!! Z.to_nat i.

(** The value a byte stands for under a signedness mode. *)
Definition interp (sign : SigningN.t) (b : Z) : Z :=
  match sign with
  | Unsigned => b
  | Signed => to_int8 b
  end.

(** The naive scalar comparison of a column byte against the scalar. *)
Definition naive_compare (cOp : CompareOperatorN.t) (sign : SigningN.t) (b v : Z) : bool :=
  let x := interp sign b in
  let y := interp sign v in
  match cOp with
  | Equals => x =? y
  | NotEquals => negb (x =? y)
  | LessThan => x <? y
  | LessThanOrEqual => x <=? y
  | GreaterThan => x >? y
  | GreaterThanOrEqual => x >=? y
  end.

(** The bit the block loop computes for one lane: the bias, the signed
    lane compare with the operand order of the operator, and the final
    inversion. *)
Definition lane_shift (sign : SigningN.t) (x : Z) : Z :=
  match sign with
  | Unsigned => to_uint8 (x - to_uint8 (-128))
  | Signed => x
  end.

Definition lane_raw (cOp : CompareOperatorN.t) (sign : SigningN.t) (b v : Z) : bool :=
  let x := lane_shift sign b in
  let y := lane_shift sign (to_uint8 v) in
  match cOp with
  | GreaterThan | LessThanOrEqual => to_int8 x >? to_int8 y
  | LessThan | GreaterThanOrEqual => to_int8 y >? to_int8 x
  | Equals | NotEquals => to_uint8 x =? to_uint8 y
  end.

Definition post_invert (cOp : CompareOperatorN.t) : bool :=
  match cOp with
  | LessThanOrEqual | GreaterThanOrEqual | NotEquals => true
  | _ => false
  end.

Definition lane_compare (cOp : CompareOperatorN.t) (sign : SigningN.t) (b v : Z) : bool :=
  xorb (post_invert cOp) (lane_raw cOp sign b v).

(** The byte a lane compare leaves in a mask lane. *)
Definition lane_mask (c : bool) : Z := if c then 255 else 0.

(** Number of bitmap words a column of [n] rows needs. *)
Definition words_for (n : Z) : Z := (n + 63) / 64.

(** Number of one bits among bit positions [0 .. n-1] of a word, and
    among the 64 positions of a bitmap word. *)
Fixpoint bits_below (n : nat) (w : Z) : Z :=
  match n with
  | O => 0
  | S n' => bits_below n' w + Z.b2z (Z.testbit w (Z.of_nat n'))
  end.

Definition bit_count (w : Z) : Z := bits_below 64 w.

Fixpoint total_bit_count (l : list Z) : Z :=
  match l with
  | [] => 0
  | w :: l' => bit_count w + total_bit_count l'
  end.

(** The three combinator laws, on words. *)
Definition merged (bOp : BooleanOperatorN.t) (B R : Z) : Z :=
  match bOp with
  | And => Z.land B R
  | AndNot => Z.land B (not64 R)
  | Or => Z.lor B R
  end.

(** The result word the tail loop of [Where] builds for a column of
    [len] rows, before the combinator is applied. *)
Definition tail_result (cOp : CompareOperatorN.t) (set : list Z) (len value : Z) : option Z :=
  snd <$> Where_tail cOp set len value (S (Z.to_nat len)) (blockLength len) 0.

(** Loop invariant of the tail of [Where]: when the loop is at row [i],
    bit [j] of [result] is set exactly for the matching rows among those
    already visited. *)
Definition tail_inv (cOp : CompareOperatorN.t) (set : list Z) (len value : Z)
    (i r : Z) : Prop :=
  forall j, 0 <= j ->
    Z.testbit r j
    = (j <? i - blockLength len) && tail_compare cOp value (row set (blockLength len + j)).

(** The operator pairs of which one is the negation of the other. *)
Definition inverse_pairs : list (CompareOperatorN.t * CompareOperatorN.t) :=
  [(GreaterThan, LessThanOrEqual); (LessThan, GreaterThanOrEqual); (Equals, NotEquals)].

(** A combinator on single bits: the old bit of a row and the match bit
    of the scan. *)
Definition merge_bit (bOp : BooleanOperatorN.t) (b r : bool) : bool :=
  match bOp with
  | And => b && r
  | AndNot => b && negb r
  | Or => b || r
  end.

(** The match bit the scan computes for row [i] of a column of [len]
    rows: the lane comparison in the block loop, the unsigned comparison
    in the tail. *)
Definition scan_bit (cOp : CompareOperatorN.t) (sign : SigningN.t)
    (set : list Z) (len value : Z) (i : Z) : bool :=
  if i <? blockLength len
  then lane_compare cOp sign (row set i) value
  else tail_compare cOp value (row set i).

(** The result word a scan of [len] rows combines into word [w] of the
    bitmap: that of block [w], that of the tail, or none. *)
Definition result_word (cOp : CompareOperatorN.t) (sign : SigningN.t)
    (set : list Z) (len value : Z) (w : nat) : option Z :=
  if decide (Z.of_nat w < len / 64)
  then block_result cOp sign set value (64 * Z.of_nat w)
  else if decide (Z.of_nat w = len / 64 /\ 0 < len mod 64)
       then tail_result cOp set len value
       else None.

(** A bitmap represents a predicate on the rows of a column of [len]
    rows: the bit of every row below [len] is the predicate at that
    row, and every other bit of every word is zero. *)
Definition represents (mv : list Z) (len : Z) (P : Z -> bool) : Prop :=
  forall (w : nat) (j : Z), (w < length mv)%nat -> 0 <= j < 64 ->
    Z.testbit (mv !!! w) j
    = (64 * Z.of_nat w + j <? len) && P (64 * Z.of_nat w + j).

(** Number of indices [i < n] at which [g] holds. *)
Fixpoint count_below (g : Z -> bool) (n : nat) : Z :=
  match n with
  | O => 0
  | S n' => count_below g n' + Z.b2z (g (Z.of_nat n'))
  end.

(** Number of rows among the first [n] of a column that match under the
    naive comparison. *)
Definition matching_rows (cOp : CompareOperatorN.t) (sign : SigningN.t)
    (set : list Z) (value : Z) (n : nat) : Z :=
  count_below (fun i => naive_compare cOp sign (row set i) value) n.

(** * Properties *)

(** ** Fixed-width integers *)

Lemma byte_cases (P : Z -> bool) :
  forallb P (seqZ 0 256) = true -> forall a, is_byte a -> P a = true.
Proof.
  intros HP a Ha. rewrite forallb_forall in HP. apply HP.
  apply list_elem_of_In, elem_of_seqZ. unfold is_byte in Ha. lia.
Qed.

Lemma to_uint8_byte a : is_byte a -> to_uint8 a = a.
Proof. unfold is_byte, to_uint8. intros. apply Z.mod_small. lia. Qed.

Lemma bias_xor a : is_byte a -> to_uint8 (a - 128) = Z.lxor a 128.
Proof.
  intros Ha. apply Z.eqb_eq.
  apply (byte_cases (fun a => to_uint8 (a - 128) =? Z.lxor a 128)); [by vm_compute | done].
Qed.

Ltac case_compare :=
  rewrite ?Z.gtb_ltb, ?Z.geb_leb;
  repeat match goal with
         | |- context [Z.ltb ?a ?b] => destruct (Z.ltb_spec a b)
         | |- context [Z.leb ?a ?b] => destruct (Z.leb_spec a b)
         | |- context [Z.eqb ?a ?b] => destruct (Z.eqb_spec a b)
         end;
  simpl; try reflexivity; try lia.

Lemma to_int8_byte a : is_byte a -> to_int8 a = if a <? 128 then a else a - 256.
Proof.
  unfold is_byte, to_int8. intros Ha. cbv zeta.
  change (2 ^ 8) with 256. change (2 ^ 7) with 128.
  by rewrite Z.mod_small by lia.
Qed.

Lemma to_uint8_bias a :
  is_byte a -> to_uint8 (a - 128) = if a <? 128 then a + 128 else a - 128.
Proof.
  unfold is_byte, to_uint8. intros Ha. change (2 ^ 8) with 256.
  destruct (Z.ltb_spec a 128).
  - symmetry. apply Z.mod_unique with (q := -1); lia.
  - apply Z.mod_small. lia.
Qed.

Lemma to_uint8_idemp x : to_uint8 (to_uint8 x) = to_uint8 x.
Proof. unfold to_uint8. by rewrite Z.mod_mod by lia. Qed.

Lemma to_int8_to_uint8 x : to_int8 (to_uint8 x) = to_int8 x.
Proof. unfold to_int8, to_uint8. by rewrite Z.mod_mod by lia. Qed.

Lemma to_int8_bias a : is_byte a -> to_int8 (a - 128) = a - 128.
Proof.
  intros Ha. rewrite <- to_int8_to_uint8, to_uint8_bias by done.
  unfold is_byte in Ha.
  destruct (Z.ltb_spec a 128); rewrite to_int8_byte by (unfold is_byte; lia);
    case_compare.
Qed.

Lemma to_uint32_to_int32 x : to_uint32 (to_int32 x) = to_uint32 x.
Proof.
  unfold to_uint32, to_int32. cbv zeta.
  destruct (_ <? _); [by rewrite Z.mod_mod by lia|].
  rewrite <- (Z.mod_add _ 1) by lia.
  replace (x mod 2 ^ 32 - 2 ^ 32 + 1 * 2 ^ 32) with (x mod 2 ^ 32) by lia.
  by rewrite Z.mod_mod by lia.
Qed.

Lemma not64_range x : is_word64 (not64 x).
Proof. unfold is_word64, not64, to_uint64. apply Z.mod_pos_bound. lia. Qed.

Lemma not64_testbit x j : 0 <= j < 64 -> Z.testbit (not64 x) j = negb (Z.testbit x j).
Proof.
  intros Hj. unfold not64, to_uint64.
  rewrite Z.mod_pow2_bits_low by lia. apply Z.lnot_spec. lia.
Qed.

Lemma lane_compare_naive cOp sign b v :
  is_byte b -> is_byte v -> lane_compare cOp sign b v = naive_compare cOp sign b v.
Proof.
  intros Hb Hv. unfold lane_compare, lane_raw, post_invert, naive_compare, lane_shift, interp.
  rewrite (to_uint8_byte v Hv).
  change (to_uint8 (-128)) with 128.
  destruct sign.
  - rewrite !to_int8_to_uint8, !to_uint8_idemp, !to_int8_bias by done.
    rewrite !to_uint8_bias by done. unfold is_byte in *.
    destruct cOp; cbv zeta; case_compare.
  - rewrite !to_uint8_byte, !to_int8_byte by done. unfold is_byte in *.
    destruct cOp; cbv zeta; case_compare.
Qed.

(** ** The intrinsics, lane by lane *)

Lemma movemask_bits_range a : 0 <= movemask_bits a < 2 ^ Z.of_nat (length a).
Proof.
  induction a as [|x a IH]; [simpl; lia|].
  cbn [movemask_bits length]. rewrite Nat2Z.inj_succ, Z.pow_succ_r by lia.
  destruct (Z.testbit x 7); simpl Z.b2z; lia.
Qed.

Lemma movemask_bits_testbit a (j : nat) :
  Z.testbit (movemask_bits a) (Z.of_nat j) = from_option (fun x => Z.testbit x 7) false (a !! j).
Proof.
  revert j. induction a as [|x a IH]; intros j.
  - simpl. apply Z.testbit_0_l.
  - cbn [movemask_bits]. rewrite Z.add_comm. destruct j as [|j].
    + simpl Z.of_nat. by rewrite Z.testbit_0_r.
    + rewrite Nat2Z.inj_succ, Z.testbit_succ_r by lia. apply IH.
Qed.

Lemma lane_mask_testbit c : Z.testbit (lane_mask c) 7 = c.
Proof. by destruct c. Qed.

Lemma movemask_epi8_lanes (f : Z -> bool) (block : list Z) :
  (length block <= 32)%nat ->
  let m := to_uint32 (_mm256_movemask_epi8 ((fun b => lane_mask (f b)) <$> block)) in
  0 <= m < 2 ^ 32 /\
  forall j : nat, Z.testbit m (Z.of_nat j) = from_option f false (block !! j).
Proof.
  intros Hlen m. subst m. unfold _mm256_movemask_epi8.
  rewrite to_uint32_to_int32. unfold to_uint32.
  pose proof (movemask_bits_range ((fun b => lane_mask (f b)) <$> block)) as Hr.
  rewrite length_fmap in Hr.
  assert (2 ^ Z.of_nat (length block) <= 2 ^ 32) by (apply Z.pow_le_mono_r; lia).
  rewrite Z.mod_small by lia. split; [lia|].
  intros j. rewrite movemask_bits_testbit, list_lookup_fmap.
  destruct (block !! j); simpl; [apply lane_mask_testbit | done].
Qed.

Lemma pack_testbit m1 m2 j :
  0 <= m1 < 2 ^ 32 -> 0 <= m2 < 2 ^ 32 -> 0 <= j < 64 ->
  Z.testbit (Z.lor (to_uint64 (Z.shiftl (to_uint64 m2) 32)) m1) j
  = if j <? 32 then Z.testbit m1 j else Z.testbit m2 (j - 32).
Proof.
  intros H1 H2 Hj. unfold to_uint64.
  rewrite Z.lor_spec, Z.mod_pow2_bits_low, Z.shiftl_spec by lia.
  rewrite (Z.mod_small m2) by lia.
  destruct (Z.ltb_spec j 32).
  - rewrite (Z.testbit_neg_r m2) by lia. done.
  - replace (Z.testbit m1 j) with false; [by rewrite orb_false_r|].
    symmetry. rewrite <- (Z.mod_small m1 (2 ^ 32)) by lia.
    apply Z.mod_pow2_bits_high. lia.
Qed.

Lemma pack_range m1 m2 :
  0 <= m1 < 2 ^ 32 -> 0 <= m2 < 2 ^ 32 ->
  is_word64 (Z.lor (to_uint64 (Z.shiftl (to_uint64 m2) 32)) m1).
Proof.
  intros H1 H2. unfold is_word64.
  assert (0 <= to_uint64 (Z.shiftl (to_uint64 m2) 32) < 2 ^ 64)
    by (unfold to_uint64; apply Z.mod_pos_bound; lia).
  split; [apply Z.lor_nonneg; lia|].
  apply Z.log2_lt_cancel. rewrite Z.log2_pow2 by lia.
  destruct (Z.eq_dec (Z.lor (to_uint64 (Z.shiftl (to_uint64 m2) 32)) m1) 0) as [->|Hne];
    [simpl; lia|].
  rewrite Z.log2_lor by lia.
  apply Z.max_lub_lt.
  - destruct (Z.eq_dec (to_uint64 (Z.shiftl (to_uint64 m2) 32)) 0) as [->|?]; [simpl; lia|].
    apply Z.log2_lt_pow2; lia.
  - destruct (Z.eq_dec m1 0) as [->|?]; [simpl; lia|].
    apply Z.log2_lt_pow2; [lia|]. assert (2 ^ 32 < 2 ^ 64) by (vm_compute; done). lia.
Qed.

Lemma loadu_in_range set i :
  0 <= i -> i + 32 <= Length set ->
  _mm256_loadu_si256 set i = Some (take 32 (drop (Z.to_nat i) set)).
Proof.
  unfold _mm256_loadu_si256, Length. intros Hi Hlen.
  destruct (Z.leb_spec 0 i); [|lia].
  destruct (Z.leb_spec (i + 32) (Z.of_nat (length set))); [done | lia].
Qed.

Lemma loaded_length (set : list Z) i : (length (take 32 (drop (Z.to_nat i) set)) <= 32)%nat.
Proof. rewrite length_take. lia. Qed.

Lemma loaded_lane (set : list Z) i (j : nat) :
  0 <= i -> i + 32 <= Length set -> (j < 32)%nat ->
  take 32 (drop (Z.to_nat i) set) !! j = Some (row set (i + Z.of_nat j)).
Proof.
  unfold Length, row. intros Hi Hlen Hj.
  rewrite lookup_take_lt, lookup_drop by done.
  replace (Z.to_nat (i + Z.of_nat j)) with (Z.to_nat i + j)%nat by lia.
  apply list_lookup_lookup_total_lt. lia.
Qed.

(** The mask register computed from a loaded block holds, lane by lane,
    the raw comparison of the operator. *)
Lemma match_mask_lanes cOp sign value (block : list Z) :
  (length block <= 32)%nat ->
  let shifted := match sign with
                 | Unsigned => _mm256_sub_epi8 block unsignedToSigned
                 | Signed => block
                 end in
  match cOp with
  | GreaterThan | LessThanOrEqual => _mm256_cmpgt_epi8 shifted (blockOfValue sign value)
  | LessThan | GreaterThanOrEqual => _mm256_cmpgt_epi8 (blockOfValue sign value) shifted
  | Equals | NotEquals => _mm256_cmpeq_epi8 shifted (blockOfValue sign value)
  end = (fun b => lane_mask (lane_raw cOp sign b value)) <$> block.
Proof.
  intros Hlen shifted.
  assert (Hv : blockOfValue sign value = replicate 32 (lane_shift sign (to_uint8 value))).
  { unfold blockOfValue, unsignedToSigned, _mm256_sub_epi8, _mm256_set1_epi8.
    destruct sign; [by rewrite zip_with_replicate | done]. }
  assert (Hs : shifted = lane_shift sign <$> block).
  { subst shifted. unfold unsignedToSigned, _mm256_sub_epi8, _mm256_set1_epi8.
    destruct sign; [by rewrite zip_with_replicate_r | by rewrite list_fmap_id]. }
  rewrite Hv, Hs.
  unfold _mm256_cmpgt_epi8, _mm256_cmpeq_epi8.
  destruct cOp;
    rewrite ?zip_with_replicate_r, ?zip_with_replicate_l by (by rewrite length_fmap);
    rewrite <- list_fmap_compose; reflexivity.
Qed.

Lemma packed_result_bits (f : Z -> bool) (set : list Z) i :
  0 <= i -> i + 64 <= Length set ->
  let m k := to_uint32 (_mm256_movemask_epi8
                          ((fun b => lane_mask (f b)) <$> take 32 (drop (Z.to_nat k) set))) in
  let R := Z.lor (to_uint64 (Z.shiftl (to_uint64 (m (i + 32))) 32)) (m i) in
  is_word64 R /\ forall j, 0 <= j < 64 -> Z.testbit R j = f (row set (i + j)).
Proof.
  intros Hi Hlen m R.
  destruct (movemask_epi8_lanes f _ (loaded_length set i)) as [R1 B1].
  destruct (movemask_epi8_lanes f _ (loaded_length set (i + 32))) as [R2 B2].
  fold (m i) in R1, B1. fold (m (i + 32)) in R2, B2.
  split; [by apply pack_range|].
  intros j Hj. subst R. rewrite pack_testbit by done.
  destruct (Z.ltb_spec j 32).
  - rewrite <- (Z2Nat.id j) at 1 by lia.
    rewrite B1, loaded_lane by lia. simpl. by rewrite Z2Nat.id by lia.
  - rewrite <- (Z2Nat.id (j - 32)) by lia.
    rewrite B2, loaded_lane by lia. simpl. f_equal. f_equal. lia.
Qed.

(** One iteration of the block loop: the result word is defined, fits
    64 bits, and its bit [j] is the lane comparison of row [i + j]. *)
Lemma block_result_bits cOp sign set value i :
  0 <= i -> i + 64 <= Length set ->
  exists R, block_result cOp sign set value i = Some R /\ is_word64 R /\
    forall j, 0 <= j < 64 ->
      Z.testbit R j = lane_compare cOp sign (row set (i + j)) value.
Proof.
  intros Hi Hlen. unfold block_result.
  rewrite !loadu_in_range by lia. simpl.
  pose proof (match_mask_lanes cOp sign value _ (loaded_length set i)) as E1.
  pose proof (match_mask_lanes cOp sign value _ (loaded_length set (i + 32))) as E2.
  destruct (packed_result_bits (fun b => lane_raw cOp sign b value) set i Hi Hlen)
    as [HR HB].
  unfold lane_compare.
  destruct cOp; cbv beta iota zeta in E1, E2 |- *; rewrite E1, E2;
    eexists; (split; [reflexivity|]); simpl post_invert; cbv beta iota.
  all: first [ split; [exact HR|]; intros j Hj; rewrite HB by done; reflexivity
             | split; [apply not64_range|]; intros j Hj;
               rewrite not64_testbit, HB by done; reflexivity ].
Qed.

(** ** The bitmap store *)

Lemma shiftr_6 i : Z.shiftr i 6 = i / 64.
Proof. by rewrite Z.shiftr_div_pow2 by lia. Qed.

Lemma mul_64_div k : 64 * k / 64 = k.
Proof. rewrite Z.mul_comm. apply Z.div_mul. lia. Qed.

Lemma land_63 i : Z.land i 63 = i mod 64.
Proof. change 63 with (Z.ones 6). by rewrite Z.land_ones by lia. Qed.

Lemma blockLength_div len : blockLength len = 64 * (len / 64).
Proof. unfold blockLength. rewrite land_63. pose proof (Z.div_mod len 64). lia. Qed.

Lemma index_Some (p : list Z) i x :
  index p i = Some x <-> 0 <= i /\ p !! Z.to_nat i = Some x.
Proof.
  unfold index. destruct (Z.leb_spec 0 i); split; intros; try tauto; try done; lia.
Qed.

Lemma index_in_range (p : list Z) i :
  0 <= i < Length p -> index p i = Some (row p i).
Proof.
  unfold Length, row. intros Hi. apply index_Some. split; [lia|].
  apply list_lookup_lookup_total_lt. lia.
Qed.

Lemma combine_merged bOp i R (mv : list Z) B :
  index mv (i / 64) = Some B ->
  combine bOp i R mv = Some (tt, <[Z.to_nat (i / 64) := merged bOp B R]> mv).
Proof.
  intros HB. unfold combine, bind, load, lift. rewrite shiftr_6, HB.
  unfold merged, store. destruct bOp; by rewrite HB.
Qed.

(** ** The block loop *)

Section Where_loops.
Variables (cOp : CompareOperatorN.t) (bOp : BooleanOperatorN.t) (sign : SigningN.t).
Variables (set : list Z) (len : Z) (value : Z).
Hypothesis len_range : 0 <= len <= Length set.

Lemma Where_blocks_spec (fuel : nat) :
  forall (k : Z) (mv : list Z),
    0 <= k <= len / 64 -> len / 64 <= Length mv ->
    (Z.to_nat (len / 64 - k) < fuel)%nat ->
    exists mv',
      Where_blocks cOp bOp sign set len value fuel (64 * k) mv
      = Some (blockLength len, mv') /\
      length mv' = length mv /\
      forall w : nat,
        mv' !! w =
        if decide (k <= Z.of_nat w < len / 64)
        then B ← mv !! w;
             R ← block_result cOp sign set value (64 * Z.of_nat w);
             Some (merged bOp B R)
        else mv !! w.
Proof.
  pose proof (Z.div_mod len 64 ltac:(lia)) as Hdm.
  pose proof (Z.mod_pos_bound len 64 ltac:(lia)) as Hmod.
  induction fuel as [|fuel IH]; intros k mv Hk Hmv Hfuel; [lia|].
  cbn [Where_blocks]. rewrite blockLength_div.
  destruct (Z.ltb_spec (64 * k) (64 * (len / 64))) as [Hlt|Hge].
  - destruct (block_result_bits cOp sign set value (64 * k)) as (R & HR & _ & _);
      [lia | lia |].
    assert (HB : index mv (64 * k / 64) = Some (row mv k)).
    { rewrite mul_64_div. apply index_in_range. lia. }
    unfold bind at 1. unfold lift at 1. rewrite HR.
    unfold bind at 1. rewrite (combine_merged _ _ _ _ _ HB).
    rewrite mul_64_div.
    replace (64 * k + 64) with (64 * (k + 1)) by lia.
    destruct (IH (k + 1) (<[Z.to_nat k := merged bOp (row mv k) R]> mv))
      as (mv' & Hrun & Hlen' & Hlook).
    { lia. } { unfold Length in *. rewrite length_insert. lia. } { lia. }
    exists mv'. rewrite <- blockLength_div. split; [exact Hrun|].
    rewrite length_insert in Hlen'. split; [exact Hlen'|].
    intros w. rewrite Hlook.
    destruct (decide (Z.to_nat k = w)) as [<-|Hne].
    + rewrite decide_False by lia. rewrite decide_True by lia.
      rewrite list_lookup_insert_eq by (unfold Length in *; lia).
      rewrite Z2Nat.id by lia. rewrite HR.
      unfold row. rewrite list_lookup_lookup_total_lt by (unfold Length in *; lia).
      reflexivity.
    + rewrite list_lookup_insert_ne by done.
      destruct (decide (k + 1 <= Z.of_nat w < len / 64)).
      * by rewrite decide_True by lia.
      * by rewrite decide_False by lia.
  - assert (k = len / 64) by lia. subst k.
    exists mv. unfold ret. split; [done|]. split; [done|].
    intros w. by rewrite decide_False by lia.
Qed.
End Where_loops.

(** ** The tail loop and the whole scan *)

Section Where_scan.
Variables (cOp : CompareOperatorN.t) (bOp : BooleanOperatorN.t) (sign : SigningN.t).
Variables (set : list Z) (len : Z) (value : Z).
Hypothesis len_range : 0 <= len <= Length set.

Lemma Where_tail_spec (fuel : nat) :
  forall i r,
    blockLength len <= i <= len -> (Z.to_nat (len - i) < fuel)%nat ->
    tail_inv cOp set len value i r ->
    exists r', Where_tail cOp set len value fuel i r = Some (len, r') /\
               tail_inv cOp set len value len r'.
Proof.
  pose proof (Z.div_mod len 64 ltac:(lia)) as Hdm.
  pose proof (Z.mod_pos_bound len 64 ltac:(lia)) as Hmod.
  pose proof (blockLength_div len) as Hbl.
  unfold tail_inv.
  induction fuel as [|fuel IH]; intros i r Hi Hfuel Hinv; [lia|].
  cbn [Where_tail]. destruct (Z.ltb_spec i len) as [Hlt|Hge].
  - rewrite index_in_range by lia. simpl.
    apply IH; [lia | lia |].
    assert (Ht : Z.land i 63 = i - blockLength len).
    { rewrite land_63. symmetry. apply Z.mod_unique with (q := len / 64); lia. }
    rewrite Ht. intros j Hj.
    destruct (tail_compare cOp value (row set i)) eqn:Hc.
    + rewrite Z.lor_spec, Z.shiftl_1_l, Z.pow2_bits_eqb, Hinv by lia.
      destruct (Z.eqb_spec (i - blockLength len) j) as [<-|Hne].
      * replace (blockLength len + (i - blockLength len)) with i by lia.
        rewrite Hc, orb_true_r. case_compare.
      * rewrite orb_false_r.
        destruct (Z.ltb_spec j (i - blockLength len)); case_compare.
    + rewrite Hinv by lia.
      destruct (Z.eq_dec (i - blockLength len) j) as [<-|Hne].
      * replace (blockLength len + (i - blockLength len)) with i by lia.
        rewrite Hc, andb_false_r. case_compare.
      * destruct (Z.ltb_spec j (i - blockLength len)); case_compare.
  - assert (i = len) by lia. subst i. by exists r.
Qed.

(** The tail result word: bit [j] is set exactly when [j] is the
    position of a real tail row and that row matches. *)
Lemma tail_result_bits :
  exists R, tail_result cOp set len value = Some R /\
    forall j, 0 <= j ->
      Z.testbit R j
      = (j <? len mod 64) && tail_compare cOp value (row set (blockLength len + j)).
Proof.
  pose proof (Z.div_mod len 64 ltac:(lia)) as Hdm.
  pose proof (Z.mod_pos_bound len 64 ltac:(lia)) as Hmod.
  pose proof (blockLength_div len) as Hbl.
  destruct (Where_tail_spec (S (Z.to_nat len)) (blockLength len) 0) as (R & HR & Hinv).
  { lia. } { lia. }
  { intros j Hj. rewrite Z.testbit_0_l. case_compare. }
  exists R. unfold tail_result. rewrite HR. split; [done|].
  intros j Hj. rewrite Hinv by done. do 2 f_equal. lia.
Qed.

(** What [Where] leaves in every word of a bitmap that is large enough. *)
Lemma Where_spec (mv : list Z) :
  words_for len <= Length mv ->
  exists mv',
    Where cOp bOp sign set len value mv = Some (tt, mv') /\
    length mv' = length mv /\
    forall w : nat,
      mv' !! w =
      if decide (Z.of_nat w < len / 64)
      then B ← mv !! w;
           R ← block_result cOp sign set value (64 * Z.of_nat w);
           Some (merged bOp B R)
      else if decide (Z.of_nat w = len / 64 /\ 0 < len mod 64)
      then B ← mv !! w;
           R ← tail_result cOp set len value;
           Some (merged bOp B R)
      else mv !! w.
Proof.
  intros Hmv. unfold words_for in Hmv.
  pose proof (Z.div_mod len 64 ltac:(lia)) as Hdm.
  pose proof (Z.mod_pos_bound len 64 ltac:(lia)) as Hmod.
  assert (Hwords : len / 64 <= Length mv /\ (0 < len mod 64 -> len / 64 < Length mv)).
  { assert (len / 64 <= (len + 63) / 64) by (apply Z.div_le_mono; lia).
    split; [lia|]. intros Hpos.
    assert (len / 64 + 1 <= (len + 63) / 64); [|lia].
    apply Z.div_le_lower_bound; lia. }
  destruct Hwords as [Hw1 Hw2].
  assert (Hdiv : len / 64 <= len) by (apply Z.div_le_upper_bound; lia).
  destruct (Where_blocks_spec cOp bOp sign set len value len_range
              (S (Z.to_nat len)) 0 mv) as (mv1 & Hrun & Hlen1 & Hlook1).
  { lia. } { lia. } { lia. }
  change (64 * 0) with 0 in Hrun.
  unfold Where. cbv zeta. unfold bind at 1. rewrite Hrun.
  rewrite land_63. rewrite Z.gtb_ltb.
  destruct (Z.ltb_spec 0 (len mod 64)) as [Hpos|Hzero].
  - destruct tail_result_bits as (R & HR & _).
    unfold tail_result in HR.
    destruct (Where_tail cOp set len value (S (Z.to_nat len)) (blockLength len) 0)
      as [[i R']|] eqn:Htail; [|done].
    destruct (Where_tail_spec (S (Z.to_nat len)) (blockLength len) 0) as (R2 & HR2 & _).
    { rewrite blockLength_div. lia. } { rewrite blockLength_div. lia. }
    { intros j Hj. rewrite Z.testbit_0_l. case_compare. }
    rewrite Htail in HR2. injection HR2 as -> ->. simpl in HR. injection HR as ->.
    unfold bind, lift.
    assert (HB : index mv1 (len / 64) = Some (row mv (len / 64))).
    { apply index_Some. split; [lia|]. rewrite Hlook1.
      rewrite decide_False by lia. unfold row.
      apply list_lookup_lookup_total_lt. unfold Length in *. lia. }
    rewrite (combine_merged _ _ _ _ _ HB).
    eexists. split; [reflexivity|]. rewrite length_insert. split; [done|].
    intros w. destruct (decide (Z.to_nat (len / 64) = w)) as [<-|Hne].
    + rewrite list_lookup_insert_eq by (unfold Length in *; lia).
      rewrite decide_False by lia. rewrite decide_True by lia.
      unfold tail_result. rewrite Htail. simpl.
      unfold row. rewrite list_lookup_lookup_total_lt by (unfold Length in *; lia).
      reflexivity.
    + rewrite list_lookup_insert_ne by done. rewrite Hlook1.
      destruct (decide (Z.of_nat w < len / 64)).
      * by rewrite decide_True by lia.
      * rewrite decide_False by lia. by rewrite decide_False by lia.
  - exists mv1. split; [done|]. split; [done|].
    intros w. rewrite Hlook1.
    destruct (decide (Z.of_nat w < len / 64)).
    + by rewrite decide_True by lia.
    + rewrite decide_False by lia. by rewrite decide_False by lia.
Qed.
End Where_scan.

(** ** Scanning into an empty bitmap *)

Lemma row_split i :
  0 <= i -> i = 64 * Z.of_nat (Z.to_nat (i / 64)) + i mod 64 /\ 0 <= i mod 64 < 64.
Proof.
  intros Hi. pose proof (Z.div_mod i 64 ltac:(lia)).
  pose proof (Z.mod_pos_bound i 64 ltac:(lia)).
  assert (0 <= i / 64) by (apply Z.div_pos; lia).
  rewrite Z2Nat.id by lia. lia.
Qed.

(** Or-combined into an all-zero bitmap, the scan leaves in the bit of
    row [i] the lane comparison for the rows of the block loop and the
    tail comparison for the rows of the tail loop. *)
Lemma Where_Or_rows cOp sign set len value (nw : nat) :
  0 <= len <= Length set -> words_for len <= Z.of_nat nw ->
  exists mv',
    Where cOp Or sign set len value (replicate nw 0) = Some (tt, mv') /\
    length mv' = nw /\
    (forall w : nat, Z.of_nat w < len / 64 ->
       block_result cOp sign set value (64 * Z.of_nat w) = Some (mv' !!! w)) /\
    (0 < len mod 64 -> tail_result cOp set len value = Some (mv' !!! Z.to_nat (len / 64))) /\
    (forall w : nat, words_for len <= Z.of_nat w -> (w < nw)%nat -> mv' !!! w = 0) /\
    forall i, 0 <= i < len ->
      Z.testbit (mv' !!! Z.to_nat (i / 64)) (i mod 64)
      = if i <? blockLength len
        then lane_compare cOp sign (row set i) value
        else tail_compare cOp value (row set i).
Proof.
  intros Hlen Hnw.
  pose proof (Z.div_mod len 64 ltac:(lia)) as Hdm.
  pose proof (Z.mod_pos_bound len 64 ltac:(lia)) as Hmod.
  assert (Hw : len / 64 <= Z.of_nat nw /\ (0 < len mod 64 -> len / 64 < Z.of_nat nw) /\
               (len mod 64 = 0 -> words_for len = len / 64) /\
               (0 < len mod 64 -> words_for len = len / 64 + 1)).
  { unfold words_for in *. repeat split.
    - assert (len / 64 <= (len + 63) / 64) by (apply Z.div_le_mono; lia). lia.
    - intros. assert (len / 64 + 1 <= (len + 63) / 64) by (apply Z.div_le_lower_bound; lia).
      lia.
    - intros. symmetry. apply Z.div_unique with (r := 63); lia.
    - intros. symmetry. apply Z.div_unique with (r := len mod 64 - 1); lia. }
  destruct Hw as (Hw1 & Hw2 & Hw3 & Hw4).
  destruct (Where_spec cOp Or sign set len value Hlen (replicate nw 0))
    as (mv' & Hrun & Hlen' & Hlook).
  { unfold Length. by rewrite length_replicate. }
  rewrite length_replicate in Hlen'.
  assert (Hblock : forall w : nat, Z.of_nat w < len / 64 ->
            block_result cOp sign set value (64 * Z.of_nat w) = Some (mv' !!! w)).
  { intros w Hlt.
    destruct (block_result_bits cOp sign set value (64 * Z.of_nat w)) as (R & HR & _);
      [lia | lia |].
    pose proof (Hlook w) as Hl. rewrite decide_True in Hl by done.
    rewrite lookup_replicate_2, HR in Hl by lia. simpl in Hl.
    rewrite HR. f_equal. symmetry. by apply list_lookup_total_correct. }
  assert (Htail : 0 < len mod 64 ->
            tail_result cOp set len value = Some (mv' !!! Z.to_nat (len / 64))).
  { intros Hpos. destruct (tail_result_bits cOp set len value Hlen) as (R & HR & _).
    pose proof (Hlook (Z.to_nat (len / 64))) as Hl.
    rewrite decide_False in Hl by lia. rewrite decide_True in Hl by lia.
    rewrite lookup_replicate_2, HR in Hl by lia. simpl in Hl.
    rewrite HR. f_equal. symmetry. by apply list_lookup_total_correct. }
  exists mv'. split; [done|]. split; [done|]. split; [done|]. split; [done|]. split.
  - intros w Hge Hlt. apply list_lookup_total_correct. rewrite Hlook.
    rewrite decide_False by lia. rewrite decide_False by lia.
    by apply lookup_replicate_2.
  - intros i Hi. destruct (row_split i ltac:(lia)) as [Hsplit Hrange].
    assert (i / 64 <= len / 64) by (apply Z.div_le_mono; lia).
    assert (0 <= i / 64) by (apply Z.div_pos; lia).
    rewrite blockLength_div.
    destruct (Z.ltb_spec i (64 * (len / 64))) as [Hlt|Hge].
    + assert (Hq : i / 64 < len / 64) by (apply Z.div_lt_upper_bound; lia).
      destruct (block_result_bits cOp sign set value (64 * Z.of_nat (Z.to_nat (i / 64))))
        as (R & HR & _ & Hbits); [lia | lia |].
      rewrite Hblock in HR by lia. injection HR as <-.
      rewrite Hbits by lia. by rewrite <- Hsplit.
    + assert (Hq : i / 64 = len / 64).
      { symmetry. apply Z.div_unique with (r := i - 64 * (len / 64)); lia. }
      assert (Hr : i mod 64 = i - 64 * (len / 64)).
      { symmetry. apply Z.mod_unique with (q := len / 64); lia. }
      destruct (tail_result_bits cOp set len value Hlen) as (R & HR & Hbits).
      rewrite Htail in HR by lia. injection HR as <-.
      rewrite Hq, Hbits by lia. rewrite blockLength_div.
      replace (64 * (len / 64) + i mod 64) with i by lia.
      destruct (Z.ltb_spec (i mod 64) (len mod 64)); [done | lia].
Qed.

(** * The combinators *)

(** C3. In a bitmap large enough for the column, each word of a full
    64-row block holds after the scan [B & R], [B | R] or [B & ~R]
    (for [And], [Or], [AndNot]), where [B] is its value before the scan
    and [R] the result word computed for the block; and so does the tail
    word, with [R] the result word of the tail loop. *)
Theorem Where_combinator_laws cOp bOp sign set len value (mv : list Z) (w : nat) (B : Z) :
  0 <= len <= Length set -> words_for len <= Length mv -> mv !! w = Some B ->
  exists mv',
    Where cOp bOp sign set len value mv = Some (tt, mv') /\
    (Z.of_nat w < len / 64 ->
     exists R, block_result cOp sign set value (64 * Z.of_nat w) = Some R /\
       mv' !! w = Some match bOp with
                       | And => Z.land B R
                       | Or => Z.lor B R
                       | AndNot => Z.land B (not64 R)
                       end) /\
    (Z.of_nat w = len / 64 -> 0 < len mod 64 ->
     exists R, tail_result cOp set len value = Some R /\
       mv' !! w = Some match bOp with
                       | And => Z.land B R
                       | Or => Z.lor B R
                       | AndNot => Z.land B (not64 R)
                       end).
Proof.
  intros Hlen Hmv HB.
  destruct (Where_spec cOp bOp sign set len value Hlen mv Hmv) as (mv' & Hrun & _ & Hlook).
  exists mv'. split; [done|]. split.
  - intros Hw.
    destruct (block_result_bits cOp sign set value (64 * Z.of_nat w)) as (R & HR & _).
    { lia. }
    { pose proof (Z.div_mod len 64 ltac:(lia)).
      pose proof (Z.mod_pos_bound len 64 ltac:(lia)). lia. }
    exists R. split; [done|]. rewrite Hlook, decide_True, HB, HR by done.
    simpl. by destruct bOp.
  - intros Hw Hpos.
    destruct (tail_result_bits cOp set len value Hlen) as (R & HR & _).
    exists R. split; [done|]. rewrite Hlook.
    rewrite decide_False by lia. rewrite decide_True, HB, HR by done.
    simpl. by destruct bOp.
Qed.

Lemma Where_combinator_laws_witness :
  exists mv',
    Where GreaterThanOrEqual AndNot Unsigned [5; 10; 15; 20] 4 10 [0xFF] = Some (tt, mv') /\
    (Z.of_nat 0 < 4 / 64 ->
     exists R, block_result GreaterThanOrEqual Unsigned [5; 10; 15; 20] 10 (64 * Z.of_nat 0)
               = Some R /\
       mv' !! 0%nat = Some (Z.land 0xFF (not64 R))) /\
    (Z.of_nat 0 = 4 / 64 -> 0 < 4 mod 64 ->
     exists R, tail_result GreaterThanOrEqual [5; 10; 15; 20] 4 10 = Some R /\
       mv' !! 0%nat = Some (Z.land 0xFF (not64 R))).
Proof.
  apply (Where_combinator_laws GreaterThanOrEqual AndNot Unsigned [5; 10; 15; 20] 4 10
           [0xFF] 0%nat 0xFF).
  - change (Length [5; 10; 15; 20]) with 4. lia.
  - change (words_for 4) with 1. change (Length [255]) with 1. lia.
  - reflexivity.
Defined.

(** * The frame of the scan *)

(** C8. A scan of [len >= 0] rows into a bitmap that is large enough
    returns, keeps the bitmap's size, and leaves every word of index at
    least [ceil(len / 64)] as it was; when [len] is a multiple of 64 this
    includes word [len / 64], where a tail would have gone. *)
Theorem Where_writes_below_ceil cOp bOp sign set len value (mv : list Z) :
  0 <= len <= Length set -> words_for len <= Length mv ->
  exists mv',
    Where cOp bOp sign set len value mv = Some (tt, mv') /\
    length mv' = length mv /\
    (forall w : nat, words_for len <= Z.of_nat w -> mv' !! w = mv !! w) /\
    (len mod 64 = 0 -> forall w : nat, len / 64 <= Z.of_nat w -> mv' !! w = mv !! w).
Proof.
  intros Hlen Hmv.
  destruct (Where_spec cOp bOp sign set len value Hlen mv Hmv) as (mv' & Hrun & Hsize & Hlook).
  pose proof (Z.div_mod len 64 ltac:(lia)) as Hdm.
  pose proof (Z.mod_pos_bound len 64 ltac:(lia)) as Hmod.
  exists mv'. split; [done|]. split; [done|]. split.
  - intros w Hw. rewrite Hlook. unfold words_for in Hw.
    assert (len / 64 <= (len + 63) / 64) by (apply Z.div_le_mono; lia).
    rewrite decide_False by lia.
    destruct (decide (Z.of_nat w = len / 64 /\ 0 < len mod 64)) as [[Heq Hpos]|]; [|done].
    assert (len / 64 + 1 <= (len + 63) / 64) by (apply Z.div_le_lower_bound; lia). lia.
  - intros Hzero w Hw. rewrite Hlook.
    rewrite decide_False by lia. by rewrite decide_False by lia.
Qed.

Lemma Where_writes_below_ceil_witness :
  exists mv',
    Where LessThan Or Signed (replicate 64 7) 64 9 [0; 5; 6] = Some (tt, mv') /\
    length mv' = length [0; 5; 6] /\
    (forall w : nat, words_for 64 <= Z.of_nat w -> mv' !! w = [0; 5; 6] !! w) /\
    (64 mod 64 = 0 -> forall w : nat, 64 / 64 <= Z.of_nat w -> mv' !! w = [0; 5; 6] !! w).
Proof.
  apply (Where_writes_below_ceil LessThan Or Signed (replicate 64 7) 64 9 [0; 5; 6]).
  - change (Length (replicate 64 7)) with 64. lia.
  - change (words_for 64) with 1. change (Length [0; 5; 6]) with 3. lia.
Defined.

(** * The exported wrappers *)

(** C10. [WhereGreaterThan], [WhereLessThan] and [WhereEquals] do not
    depend on their [positive] and [and] flags: each is the [Unsigned],
    [And]-combined instance of [Where] for its operator. *)
Theorem CompareToVector_flags_ignored (p1 a1 p2 a2 : bool) set len value (mv : list Z) :
  (CompareToVector.WhereGreaterThan p1 a1 set len value mv
   = CompareToVector.WhereGreaterThan p2 a2 set len value mv /\
   CompareToVector.WhereGreaterThan p1 a1 set len value mv
   = Where GreaterThan And Unsigned set len value mv) /\
  (CompareToVector.WhereLessThan p1 a1 set len value mv
   = CompareToVector.WhereLessThan p2 a2 set len value mv /\
   CompareToVector.WhereLessThan p1 a1 set len value mv
   = Where LessThan And Unsigned set len value mv) /\
  (CompareToVector.WhereEquals p1 a1 set len value mv
   = CompareToVector.WhereEquals p2 a2 set len value mv /\
   CompareToVector.WhereEquals p1 a1 set len value mv
   = Where Equals And Unsigned set len value mv).
Proof. repeat split. Qed.

(** * AndWhereGreaterThanInternal against the template *)

Lemma block_result'_eq set value i :
  block_result' set value i = block_result GreaterThan Unsigned set value i.
Proof.
  unfold block_result', block_result.
  destruct (_mm256_loadu_si256 set i) as [block1|]; [|done].
  destruct (_mm256_loadu_si256 set (i + 32)) as [block2|]; done.
Qed.

Lemma AndWhereGreaterThan_blocks_eq set len value (fuel : nat) :
  forall i (mv : list Z),
    AndWhereGreaterThan_blocks set len value fuel i mv
    = Where_blocks GreaterThan And Unsigned set len value fuel i mv.
Proof.
  induction fuel as [|fuel IH]; intros i mv; [done|].
  cbn [AndWhereGreaterThan_blocks Where_blocks].
  change (blockLength' len) with (blockLength len).
  destruct (i <? blockLength len); [|done].
  unfold combine, bind. rewrite block_result'_eq.
  destruct (lift (block_result GreaterThan Unsigned set value i) mv) as [[R mv1]|]; [|done].
  destruct (load (Z.shiftr i 6) mv1) as [[w mv2]|]; [|done].
  destruct (store (Z.shiftr i 6) (Z.land w R) mv2) as [[[] mv3]|]; [|done].
  apply IH.
Qed.

Lemma AndWhereGreaterThan_tail_eq set len value (fuel : nat) :
  forall i r,
    AndWhereGreaterThan_tail set len value fuel i r
    = snd <$> Where_tail GreaterThan set len value fuel i r.
Proof.
  induction fuel as [|fuel IH]; intros i r; [done|].
  cbn [AndWhereGreaterThan_tail Where_tail].
  destruct (i <? len); [|done].
  destruct (index set i) as [b|]; [|done]. simpl.
  change (to_uint64 1) with 1. apply IH.
Qed.

(** The block loop stops at [blockLength]. *)
Lemma Where_blocks_final cOp bOp sign set len value (fuel : nat) :
  forall i (mv : list Z) i' mv',
    Where_blocks cOp bOp sign set len value fuel i mv = Some (i', mv') ->
    i <= blockLength len -> (blockLength len - i) mod 64 = 0 ->
    i' = blockLength len.
Proof.
  induction fuel as [|fuel IH]; intros i mv i' mv' Hrun Hle Hmod; [done|].
  cbn [Where_blocks] in Hrun. destruct (Z.ltb_spec i (blockLength len)) as [Hlt|Hge].
  - unfold bind in Hrun.
    destruct (lift (block_result cOp sign set value i) mv) as [[R mv1]|]; [|done].
    destruct (combine bOp i R mv1) as [[[] mv2]|]; [|done].
    apply IH in Hrun; [done| |].
    + assert (blockLength len - i <> 0) by lia.
      pose proof (Z.div_mod (blockLength len - i) 64 ltac:(lia)).
      assert (0 < (blockLength len - i) / 64); [|lia].
      apply Z.div_str_pos. split; [lia|].
      destruct (Z.le_gt_cases 64 (blockLength len - i)) as [|Hsmall]; [done|].
      rewrite Z.mod_small in Hmod by lia. lia.
    + replace (blockLength len - (i + 64)) with (blockLength len - i + (-1) * 64) by lia.
      by rewrite Z.mod_add by lia.
  - injection Hrun as <- _. lia.
Qed.

(** The tail loop stops at [len]. *)
Lemma Where_tail_final cOp set len value (fuel : nat) :
  forall i r i' r',
    Where_tail cOp set len value fuel i r = Some (i', r') -> i <= len -> i' = len.
Proof.
  induction fuel as [|fuel IH]; intros i r i' r' Hrun Hle; [done|].
  cbn [Where_tail] in Hrun. destruct (Z.ltb_spec i len) as [Hlt|Hge].
  - destruct (index set i) as [b|]; [|done]. simpl in Hrun.
    apply IH in Hrun; lia.
  - injection Hrun as <- _. lia.
Qed.

(** The two scans, run from the same bitmap, end in the same state. *)
Lemma internal_scan_is_template_scan set len value (mv : list Z) :
  0 <= len ->
  AndWhereGreaterThanInternal set len value mv
  = Where GreaterThan And Unsigned set len value mv.
Proof.
  intros Hlen. unfold AndWhereGreaterThanInternal, Where. cbv zeta.
  unfold bind. rewrite AndWhereGreaterThan_blocks_eq.
  destruct (Where_blocks GreaterThan And Unsigned set len value (S (Z.to_nat len)) 0 mv)
    as [[i mv1]|] eqn:Hblocks; [|done].
  assert (Hbl : blockLength len <= len /\ 0 <= blockLength len /\ blockLength len mod 64 = 0).
  { rewrite blockLength_div. pose proof (Z.div_mod len 64 ltac:(lia)).
    pose proof (Z.mod_pos_bound len 64 ltac:(lia)).
    assert (0 <= len / 64) by (apply Z.div_pos; lia).
    repeat split; [lia | lia |]. rewrite Z.mul_comm. apply Z.mod_mul. lia. }
  destruct Hbl as (Hbl1 & Hbl2 & Hbl3).
  apply Where_blocks_final in Hblocks; [| lia | by rewrite Z.sub_0_r].
  subst i. destruct (Z.land len 63 >? 0); [|done].
  cbv beta. unfold lift. rewrite AndWhereGreaterThan_tail_eq.
  destruct (Where_tail GreaterThan set len value (S (Z.to_nat len)) (blockLength len) 0)
    as [[i r]|] eqn:Htail; [|done].
  apply Where_tail_final in Htail; [|lia]. subst i. reflexivity.
Qed.

(** C9. For every column buffer, row count [len >= 0], scalar and
    bitmap, [AndWhereGreaterThanInternal] and
    [Where<GreaterThan, And, Unsigned>] have the same effect on the
    bitmap (and are undefined on the same inputs). *)
Theorem AndWhereGreaterThanInternal_refines_Where set len value (mv : list Z) :
  0 <= len ->
  AndWhereGreaterThanInternal set len value mv
  = Where GreaterThan And Unsigned set len value mv.
Proof. apply internal_scan_is_template_scan. Qed.

Lemma AndWhereGreaterThanInternal_refines_Where_witness :
  0 <= 65 /\
  AndWhereGreaterThanInternal (replicate 63 200 ++ [100; 7]) 65 100 [5; 7]
  = Where GreaterThan And Unsigned (replicate 63 200 ++ [100; 7]) 65 100 [5; 7].
Proof.
  assert (H : 0 <= 65) by lia.
  split; [exact H|].
  exact (AndWhereGreaterThanInternal_refines_Where (replicate 63 200 ++ [100; 7]) 65 100 [5; 7] H).
Defined.

(** * Counting *)

Lemma bits_below_shift (n : nat) w :
  bits_below (S n) w = Z.b2z (Z.odd w) + bits_below n (Z.div2 w).
Proof.
  induction n as [|n IH].
  - cbn [bits_below Z.of_nat]. rewrite Z.bit0_odd. lia.
  - change (bits_below (S (S n)) w)
      with (bits_below (S n) w + Z.b2z (Z.testbit w (Z.of_nat (S n)))).
    rewrite IH. cbn [bits_below].
    rewrite Z.div2_div, Z.div2_bits, Nat2Z.inj_succ by lia. lia.
Qed.

Lemma popcnt_bits_below (n : nat) : forall w, popcnt n w = bits_below n w.
Proof.
  induction n as [|n IH]; intros w; [done|].
  rewrite bits_below_shift. cbn [popcnt]. by rewrite IH.
Qed.

Lemma bits_below_range (n : nat) w : 0 <= bits_below n w <= Z.of_nat n.
Proof.
  induction n as [|n IH]; [simpl; lia|].
  cbn [bits_below]. destruct (Z.testbit w (Z.of_nat n)); simpl Z.b2z; lia.
Qed.

Lemma popcnt_u64_bit_count w : _mm_popcnt_u64 w = bit_count w.
Proof. apply popcnt_bits_below. Qed.

Lemma bit_count_range w : 0 <= bit_count w <= 64.
Proof. apply (bits_below_range 64). Qed.

Lemma total_bit_count_cons w l :
  total_bit_count (w :: l) = bit_count w + total_bit_count l.
Proof. reflexivity. Qed.

Lemma total_bit_count_nonneg l : 0 <= total_bit_count l.
Proof.
  induction l as [|w l IH]; [done|].
  rewrite total_bit_count_cons. pose proof (bit_count_range w). lia.
Qed.

Lemma CountInternal_loop_spec (n : Z) (mv : list Z) (fuel : nat) :
  forall i count,
    0 <= i <= n -> n <= Length mv -> (Z.to_nat (n - i) < fuel)%nat ->
    0 <= count ->
    count + total_bit_count (take (Z.to_nat (n - i)) (drop (Z.to_nat i) mv)) < 2 ^ 63 ->
    CountInternal_loop n fuel i count mv
    = Some (count + total_bit_count (take (Z.to_nat (n - i)) (drop (Z.to_nat i) mv)), mv).
Proof.
  induction fuel as [|fuel IH]; intros i count Hi Hn Hfuel Hcount Hsum; [lia|].
  cbn [CountInternal_loop]. destruct (Z.ltb_spec i n) as [Hlt|Hge].
  - assert (Hw : mv !! Z.to_nat i = Some (row mv i)).
    { unfold row. apply list_lookup_lookup_total_lt. unfold Length in Hn. lia. }
    assert (Hdrop : take (Z.to_nat (n - i)) (drop (Z.to_nat i) mv)
                    = row mv i :: take (Z.to_nat (n - (i + 1))) (drop (Z.to_nat (i + 1)) mv)).
    { rewrite (drop_S _ _ _ Hw).
      replace (Z.to_nat (n - i)) with (S (Z.to_nat (n - (i + 1)))) by lia.
      replace (Z.to_nat (i + 1)) with (S (Z.to_nat i)) by lia. done. }
    rewrite Hdrop in Hsum |- *. rewrite total_bit_count_cons in Hsum |- *.
    pose proof (total_bit_count_nonneg
                  (take (Z.to_nat (n - (i + 1))) (drop (Z.to_nat (i + 1)) mv))) as Hrest.
    pose proof (bit_count_range (row mv i)) as Hbits.
    unfold bind, load. rewrite index_in_range by lia. unfold lift. cbv beta iota.
    rewrite popcnt_u64_bit_count.
    assert (Hwrap : to_int64 (count + bit_count (row mv i)) = count + bit_count (row mv i)).
    { unfold to_int64. cbv zeta. rewrite Z.mod_small by lia.
      destruct (Z.ltb_spec (count + bit_count (row mv i)) (2 ^ 63)); lia. }
    rewrite Hwrap, IH by lia. f_equal. f_equal. lia.
  - replace (Z.to_nat (n - i)) with 0%nat by lia.
    rewrite take_0. cbn [total_bit_count]. unfold ret. f_equal. f_equal. lia.
Qed.

(** [CountInternal] reads the first [n] words and returns the total of
    their bit counts, truncated to [int]; the bitmap is left as it was. *)
Lemma CountInternal_spec (mv : list Z) (n : Z) :
  0 <= n <= Length mv ->
  total_bit_count (take (Z.to_nat n) mv) < 2 ^ 63 ->
  CountInternal n mv = Some (to_int32 (total_bit_count (take (Z.to_nat n) mv)), mv).
Proof.
  intros Hn Hsum. unfold CountInternal, bind.
  rewrite CountInternal_loop_spec; rewrite ?Z.sub_0_r; simpl drop; try lia; done.
Qed.

(** C5, amended. [CountInternal(matchVector, n)], for [0 <= n] not
    beyond the bitmap, returns the sum over the first [n] words of the
    number of one bits of each word when that sum is at most [INT_MAX],
    and leaves the bitmap unchanged. *)
Theorem CountInternal_counts_bits (mv : list Z) (n : Z) :
  0 <= n <= Length mv ->
  total_bit_count (take (Z.to_nat n) mv) <= INT_MAX ->
  CountInternal n mv = Some (total_bit_count (take (Z.to_nat n) mv), mv).
Proof.
  intros Hn Hsum. unfold INT_MAX in Hsum.
  pose proof (total_bit_count_nonneg (take (Z.to_nat n) mv)) as Hpos.
  rewrite CountInternal_spec by lia. f_equal. f_equal.
  unfold to_int32. cbv zeta. rewrite Z.mod_small by lia.
  destruct (Z.ltb_spec (total_bit_count (take (Z.to_nat n) mv)) (2 ^ 31)); lia.
Qed.

Lemma CountInternal_counts_bits_witness :
  CountInternal 2 [5; 7; 1] = Some (total_bit_count (take (Z.to_nat 2) [5; 7; 1]), [5; 7; 1]).
Proof.
  apply (CountInternal_counts_bits [5; 7; 1] 2).
  - change (Length [5; 7; 1]) with 3. lia.
  - vm_compute. discriminate.
Defined.

Lemma total_bit_count_replicate (n : nat) w :
  total_bit_count (replicate n w) = Z.of_nat n * bit_count w.
Proof.
  induction n as [|n IH]; [done|].
  change (replicate (S n) w) with (w :: replicate n w).
  rewrite total_bit_count_cons, IH. lia.
Qed.

Lemma bit_count_all_ones : bit_count (2 ^ 64 - 1) = 64.
Proof. by vm_compute. Qed.

(** C5, as stated, fails when the sum does not fit an [int]: over
    2^25 all-ones words the sum of the bit counts is 2^31, and the
    [(int)] cast of the result returns -2^31. *)
Lemma CountInternal_overflows_int :
  CountInternal (2 ^ 25) (replicate (Z.to_nat (2 ^ 25)) (2 ^ 64 - 1))
  = Some (- 2 ^ 31, replicate (Z.to_nat (2 ^ 25)) (2 ^ 64 - 1)) /\
  total_bit_count (take (Z.to_nat (2 ^ 25)) (replicate (Z.to_nat (2 ^ 25)) (2 ^ 64 - 1)))
  = 2 ^ 31 /\
  - 2 ^ 31 <> 2 ^ 31.
Proof.
  assert (Htotal : total_bit_count
                     (take (Z.to_nat (2 ^ 25)) (replicate (Z.to_nat (2 ^ 25)) (2 ^ 64 - 1)))
                   = 2 ^ 31).
  { rewrite take_replicate, Nat.min_id, total_bit_count_replicate, bit_count_all_ones.
    rewrite Z2Nat.id by lia. reflexivity. }
  split; [|split; [exact Htotal | lia]].
  rewrite CountInternal_spec.
  - rewrite Htotal. reflexivity.
  - unfold Length. rewrite length_replicate, Z2Nat.id by lia. lia.
  - rewrite Htotal. lia.
Qed.

(** * Rows against the naive comparison *)

Lemma row_is_byte set i : Forall is_byte set -> 0 <= i < Length set -> is_byte (row set i).
Proof.
  unfold Length, row. intros Hset Hi.
  apply (Forall_lookup_1 _ _ (Z.to_nat i) _ Hset).
  apply list_lookup_lookup_total_lt. lia.
Qed.

Lemma tail_compare_naive cOp b v : tail_compare cOp v b = naive_compare cOp Unsigned b v.
Proof. by destruct cOp. Qed.

Lemma naive_compare_equality_sign cOp b v :
  cOp = Equals \/ cOp = NotEquals -> is_byte b -> is_byte v ->
  naive_compare cOp Signed b v = naive_compare cOp Unsigned b v.
Proof.
  intros HcOp Hb Hv. unfold naive_compare, interp.
  rewrite !to_int8_byte by done. unfold is_byte in *.
  destruct HcOp as [-> | ->]; case_compare.
Qed.

(** Where the scan agrees with the naive comparison: on every row of
    the block loop in both signedness modes, and on the rows of the tail
    in [Unsigned] mode or for the two equality operators. *)
Lemma Where_rows_match_naive cOp sign set len value (nw : nat) :
  Forall is_byte set -> is_byte value ->
  0 <= len <= Length set -> words_for len <= Z.of_nat nw ->
  exists mv',
    Where cOp Or sign set len value (replicate nw 0) = Some (tt, mv') /\
    forall i, 0 <= i < len ->
      i < blockLength len \/ sign = Unsigned \/ cOp = Equals \/ cOp = NotEquals ->
      Z.testbit (mv' !!! Z.to_nat (i / 64)) (i mod 64)
      = naive_compare cOp sign (row set i) value.
Proof.
  intros Hset Hvalue Hlen Hnw.
  destruct (Where_Or_rows cOp sign set len value nw Hlen Hnw)
    as (mv' & Hrun & _ & _ & _ & _ & Hbits).
  exists mv'. split; [done|]. intros i Hi Hcase. rewrite Hbits by done.
  assert (Hb : is_byte (row set i)) by (apply row_is_byte; [done | lia]).
  destruct (Z.ltb_spec i (blockLength len)) as [Hlt|Hge].
  - by apply lane_compare_naive.
  - rewrite tail_compare_naive.
    destruct Hcase as [? | [-> | HcOp]]; [lia | done |].
    destruct sign; [done|]. symmetry. by apply naive_compare_equality_sign.
Qed.

(** * The unsigned-to-signed bias *)

(** C6. For unsigned bytes [a] and [b], subtracting 0x80 from both is
    the same as XOR with 0x80, lands in the signed byte range, and the
    signed comparison of the shifted bytes is the unsigned comparison of
    [a] and [b]. Therefore the scan in [Unsigned] mode, which shifts the
    column bytes and the scalar and compares them as signed lanes, yields
    the unsigned order: bit [j] of the result word the block loop of
    [Where] computes at row [i] is the unsigned comparison of byte
    [i + j] against the scalar, for every operator, and so is the bit of
    every row of a whole scan Or-combined into an all-zero bitmap. *)
Theorem unsigned_bias_preserves_order (a b : Z) :
  is_byte a -> is_byte b ->
  to_uint8 (a - 0x80) = Z.lxor a 0x80 /\
  -128 <= to_int8 (a - 0x80) <= 127 /\
  (to_int8 (a - 0x80) >? to_int8 (b - 0x80)) = (a >? b) /\
  _mm256_cmpgt_epi8 (_mm256_sub_epi8 (_mm256_set1_epi8 a) unsignedToSigned)
                    (blockOfValue Unsigned b)
  = replicate 32 (lane_mask (a >? b)) /\
  (forall cOp (set : list Z) i,
     Forall is_byte set -> 0 <= i -> i + 64 <= Length set ->
     exists R,
       block_result cOp Unsigned set b i = Some R /\
       forall j, 0 <= j < 64 ->
         Z.testbit R j = naive_compare cOp Unsigned (row set (i + j)) b) /\
  (forall cOp (set : list Z) len (nw : nat),
     Forall is_byte set -> 0 <= len <= Length set -> words_for len <= Z.of_nat nw ->
     exists mv',
       Where cOp Or Unsigned set len b (replicate nw 0) = Some (tt, mv') /\
       forall i, 0 <= i < len ->
         Z.testbit (mv' !!! Z.to_nat (i / 64)) (i mod 64)
         = naive_compare cOp Unsigned (row set i) b).
Proof.
  intros Ha Hb. change 0x80 with 128.
  split; [by apply bias_xor|].
  rewrite !to_int8_bias by done.
  split; [unfold is_byte in Ha; lia|].
  split; [unfold is_byte in *; case_compare|].
  split; [|split].
  - unfold blockOfValue, unsignedToSigned, _mm256_cmpgt_epi8, _mm256_sub_epi8,
      _mm256_set1_epi8.
    rewrite !zip_with_replicate. f_equal.
    rewrite !(to_uint8_byte a), !(to_uint8_byte b) by done.
    change (to_uint8 (-128)) with 128.
    rewrite !to_int8_to_uint8, !to_int8_bias by done.
    unfold lane_mask, is_byte in *. case_compare.
  - intros cOp set i Hset Hi Hlen.
    destruct (block_result_bits cOp Unsigned set b i Hi Hlen) as (R & HR & _ & Hbits).
    exists R. split; [done|]. intros j Hj. rewrite Hbits by done.
    apply lane_compare_naive; [|done]. apply row_is_byte; [done | lia].
  - intros cOp set len nw Hset Hlen Hnw.
    destruct (Where_rows_match_naive cOp Unsigned set len b nw Hset Hb Hlen Hnw)
      as (mv' & Hrun & Hbits).
    exists mv'. split; [done|]. intros i Hi. apply Hbits; [done | by right; left].
Qed.

Lemma unsigned_bias_preserves_order_witness :
  is_byte 200 /\ is_byte 100 /\
  to_uint8 (200 - 0x80) = Z.lxor 200 0x80 /\
  -128 <= to_int8 (200 - 0x80) <= 127 /\
  (to_int8 (200 - 0x80) >? to_int8 (100 - 0x80)) = (200 >? 100) /\
  _mm256_cmpgt_epi8 (_mm256_sub_epi8 (_mm256_set1_epi8 200) unsignedToSigned)
                    (blockOfValue Unsigned 100)
  = replicate 32 (lane_mask (200 >? 100)) /\
  (exists R,
     block_result GreaterThan Unsigned (replicate 32 7 ++ replicate 32 200) 100 0 = Some R /\
     forall j, 0 <= j < 64 ->
       Z.testbit R j
       = naive_compare GreaterThan Unsigned
           (row (replicate 32 7 ++ replicate 32 200) (0 + j)) 100) /\
  (exists mv',
     Where LessThan Or Unsigned (replicate 32 7 ++ replicate 32 200 ++ [5]) 65 100
       (replicate 2 0) = Some (tt, mv') /\
     forall i, 0 <= i < 65 ->
       Z.testbit (mv' !!! Z.to_nat (i / 64)) (i mod 64)
       = naive_compare LessThan Unsigned
           (row (replicate 32 7 ++ replicate 32 200 ++ [5]) i) 100).
Proof.
  assert (H200 : is_byte 200) by (unfold is_byte; lia).
  assert (H100 : is_byte 100) by (unfold is_byte; lia).
  destruct (unsigned_bias_preserves_order 200 100 H200 H100)
    as (Hxor & Hrange & Horder & Hlanes & Hblock & Hscan).
  split; [exact H200|]. split; [exact H100|].
  split; [exact Hxor|]. split; [exact Hrange|]. split; [exact Horder|].
  split; [exact Hlanes|]. split.
  - apply Hblock.
    + apply Forall_app; split; apply Forall_replicate; unfold is_byte; lia.
    + lia.
    + change (Length (replicate 32 7 ++ replicate 32 200)) with 64. lia.
  - apply Hscan.
    + apply Forall_app; split; [|apply Forall_app; split];
        [apply Forall_replicate | apply Forall_replicate | repeat constructor];
        unfold is_byte; lia.
    + change (Length (replicate 32 7 ++ replicate 32 200 ++ [5])) with 65. lia.
    + change (words_for 65) with 2. lia.
Defined.

(** C1. A 65-row column scanned with [Where<GreaterThan, Or, Signed>]:
    row 64 holds 200, which is -56 as a signed byte and so not greater
    than 100, yet the scan sets its bit (bit 0 of word 1). *)
Theorem Where_signed_row_beyond_blocks_mismatch :
  Where GreaterThan Or Signed (replicate 64 0 ++ [200]) 65 100 [0; 0] = Some (tt, [0; 1]) /\
  row (replicate 64 0 ++ [200]) 64 = 200 /\
  Z.testbit ([0; 1] !!! Z.to_nat (64 / 64)) (64 mod 64) = true /\
  naive_compare GreaterThan Signed 200 100 = false.
Proof. by vm_compute. Qed.

(** * The tail *)

(** In the tail result word exactly the positions of real tail rows can
    be set, and each holds the unsigned naive comparison of its row. *)
Lemma tail_rows_match_unsigned cOp set len value :
  0 <= len <= Length set ->
  exists R, tail_result cOp set len value = Some R /\
    forall j, 0 <= j ->
      Z.testbit R j
      = (j <? len mod 64)
        && naive_compare cOp Unsigned (row set (blockLength len + j)) value.
Proof.
  intros Hlen. destruct (tail_result_bits cOp set len value Hlen) as (R & HR & Hbits).
  exists R. split; [done|]. intros j Hj. by rewrite Hbits, tail_compare_naive.
Qed.

(** C2. A one-row column scanned with [Where<GreaterThan, And, Signed>]
    into an all-ones word: the row holds 200, which is -56 as a signed
    byte and so not greater than 100, yet the tail keeps its bit; the
    block loop run on the same row padded to a full block clears it. *)
Theorem Where_signed_tail_mismatch :
  Where GreaterThan And Signed [200] 1 100 [0xFFFFFFFFFFFFFFFF] = Some (tt, [1]) /\
  tail_result GreaterThan [200] 1 100 = Some 1 /\
  naive_compare GreaterThan Signed 200 100 = false /\
  block_result GreaterThan Signed (200 :: replicate 63 0) 100 0 = Some 0.
Proof. by vm_compute. Qed.

(** * Inverse operators *)

Lemma block_result_inverse cOp cOp' sign set value i :
  In (cOp, cOp') inverse_pairs ->
  block_result cOp' sign set value i = not64 <$> block_result cOp sign set value i.
Proof.
  intros Hpair. unfold block_result.
  destruct (_mm256_loadu_si256 set i) as [block1|]; [|done].
  destruct (_mm256_loadu_si256 set (i + 32)) as [block2|]; [|done].
  destruct Hpair as [[= <- <-] | [[= <- <-] | [[= <- <-] | []]]]; reflexivity.
Qed.

Lemma lane_compare_inverse cOp cOp' sign b v :
  In (cOp, cOp') inverse_pairs ->
  lane_compare cOp' sign b v = negb (lane_compare cOp sign b v).
Proof.
  intros Hpair. unfold lane_compare.
  destruct Hpair as [[= <- <-] | [[= <- <-] | [[= <- <-] | []]]]; reflexivity.
Qed.

Lemma tail_compare_inverse cOp cOp' v b :
  In (cOp, cOp') inverse_pairs ->
  tail_compare cOp' v b = negb (tail_compare cOp v b).
Proof.
  intros Hpair. unfold tail_compare.
  destruct Hpair as [[= <- <-] | [[= <- <-] | [[= <- <-] | []]]]; case_compare.
Qed.

(** C7, as stated, fails when the row count is not a multiple of 64:
    for the one-row column [5] and the scalar 3 the inverted
    [GreaterThan] bitmap has all 63 unused bits of the tail word set,
    the [LessThanOrEqual] bitmap has none. *)
Lemma inverted_GreaterThan_is_not_LessThanOrEqual :
  Where GreaterThan Or Unsigned [5] 1 3 [0] = Some (tt, [1]) /\
  Where LessThanOrEqual Or Unsigned [5] 1 3 [0] = Some (tt, [0]) /\
  not64 <$> [1] = [0xFFFFFFFFFFFFFFFE] /\
  not64 <$> [1] <> [0].
Proof. by vm_compute. Qed.

(** C7, amended. For [GreaterThan]/[LessThanOrEqual],
    [LessThan]/[GreaterThanOrEqual] and [Equals]/[NotEquals], both
    Or-combined into an all-zero bitmap over the same column, row count,
    scalar and signedness mode: the inverted bitmap of the first agrees
    with the bitmap of the second on the bit of every row [i < len];
    every word of a full 64-row block agrees as a whole; and the two
    bitmaps are equal when [len] is a multiple of 64 and the bitmap has
    exactly [len / 64] words. *)
Theorem inverted_scan_agrees_on_rows cOp cOp' sign set len value (nw : nat) :
  In (cOp, cOp') inverse_pairs ->
  0 <= len <= Length set -> words_for len <= Z.of_nat nw ->
  exists mv mv',
    Where cOp Or sign set len value (replicate nw 0) = Some (tt, mv) /\
    Where cOp' Or sign set len value (replicate nw 0) = Some (tt, mv') /\
    (forall i, 0 <= i < len ->
       Z.testbit (not64 (mv !!! Z.to_nat (i / 64))) (i mod 64)
       = Z.testbit (mv' !!! Z.to_nat (i / 64)) (i mod 64)) /\
    (forall w : nat, Z.of_nat w < len / 64 -> not64 (mv !!! w) = mv' !!! w) /\
    (len mod 64 = 0 -> Z.of_nat nw = len / 64 -> not64 <$> mv = mv').
Proof.
  intros Hpair Hlen Hnw.
  destruct (Where_Or_rows cOp sign set len value nw Hlen Hnw)
    as (mv & Hrun & Hsize & Hblock & _ & _ & Hbits).
  destruct (Where_Or_rows cOp' sign set len value nw Hlen Hnw)
    as (mv' & Hrun' & Hsize' & Hblock' & _ & _ & Hbits').
  assert (Hwords : forall w : nat, Z.of_nat w < len / 64 -> not64 (mv !!! w) = mv' !!! w).
  { intros w Hw. pose proof (Hblock' w Hw) as H'.
    rewrite (block_result_inverse cOp cOp') in H' by done.
    rewrite (Hblock w Hw) in H'. simpl in H'. by injection H'. }
  exists mv, mv'. split; [done|]. split; [done|]. split; [|split; [done|]].
  - intros i Hi. pose proof (Z.mod_pos_bound i 64 ltac:(lia)).
    rewrite not64_testbit, Hbits, Hbits' by lia.
    destruct (i <? blockLength len).
    + by rewrite (lane_compare_inverse cOp cOp').
    + by rewrite (tail_compare_inverse cOp cOp').
  - intros Hzero Hexact. apply list_eq_same_length with nw.
    + done.
    + by rewrite length_fmap.
    + intros w x y Hw Hx Hy.
      rewrite list_lookup_fmap in Hx.
      rewrite (list_lookup_lookup_total_lt mv) in Hx by lia.
      rewrite (list_lookup_lookup_total_lt mv') in Hy by lia.
      simpl in Hx. injection Hx as <-. injection Hy as <-.
      apply Hwords. lia.
Qed.

Lemma inverted_scan_agrees_on_rows_witness :
  exists mv mv',
    Where LessThan Or Signed [5; 200; 7] 3 6 (replicate 1 0) = Some (tt, mv) /\
    Where GreaterThanOrEqual Or Signed [5; 200; 7] 3 6 (replicate 1 0) = Some (tt, mv') /\
    (forall i, 0 <= i < 3 ->
       Z.testbit (not64 (mv !!! Z.to_nat (i / 64))) (i mod 64)
       = Z.testbit (mv' !!! Z.to_nat (i / 64)) (i mod 64)) /\
    (forall w : nat, Z.of_nat w < 3 / 64 -> not64 (mv !!! w) = mv' !!! w) /\
    (3 mod 64 = 0 -> Z.of_nat 1 = 3 / 64 -> not64 <$> mv = mv').
Proof.
  apply (inverted_scan_agrees_on_rows LessThan GreaterThanOrEqual Signed [5; 200; 7] 3 6 1).
  - right. left. reflexivity.
  - change (Length [5; 200; 7]) with 3. lia.
  - change (words_for 3) with 1. lia.
Defined.

(** * The managed entry point *)

(** When the bitmap cannot hold one bit per row, the call returns
    without touching it. *)
Lemma AndWhereGreaterThan_guarded set value (mv : list Z) :
  Length set <= INT_MAX -> Length mv * 64 < Length set ->
  IndexSetN.AndWhereGreaterThan set value mv = Returned tt mv.
Proof.
  unfold INT_MAX, IndexSetN.AndWhereGreaterThan, to_int32. intros Hmax Hguard. cbv zeta.
  assert (0 <= Length mv) by (unfold Length; lia).
  rewrite Z.mod_small by lia.
  destruct (Z.ltb_spec (Length mv * 64) (2 ^ 31)); [|lia].
  destruct (Z.ltb_spec (Length mv * 64) (Length set)); [done | lia].
Qed.

(** When it can, both arrays are non-empty and the capacity in rows
    fits an [int], the scan runs on the whole column and returns. *)
Lemma AndWhereGreaterThan_scans set value (mv : list Z) :
  set <> [] -> Length set <= Length mv * 64 <= INT_MAX ->
  IndexSetN.AndWhereGreaterThan set value mv
  = run (AndWhereGreaterThanInternal set (Length set) value) mv /\
  exists mv', IndexSetN.AndWhereGreaterThan set value mv = Returned tt mv'.
Proof.
  unfold INT_MAX. intros Hset Hcap.
  assert (Hlen : 0 < Length set) by (destruct set; [done | unfold Length; simpl; lia]).
  assert (Hrun : IndexSetN.AndWhereGreaterThan set value mv
                 = run (AndWhereGreaterThanInternal set (Length set) value) mv).
  { unfold IndexSetN.AndWhereGreaterThan, to_int32. cbv zeta.
    rewrite Z.mod_small by lia.
    destruct (Z.ltb_spec (Length mv * 64) (2 ^ 31)); [|lia].
    destruct (Z.ltb_spec (Length mv * 64) (Length set)); [lia|].
    destruct set; [done|]. destruct mv; [unfold Length in *; simpl in *; lia | done]. }
  split; [done|]. rewrite Hrun. unfold run.
  rewrite internal_scan_is_template_scan by lia.
  destruct (Where_spec GreaterThan And Unsigned set (Length set) value ltac:(lia) mv)
    as (mv' & -> & _).
  { unfold words_for.
    assert ((Length set + 63) / 64 < Length mv + 1) by (apply Z.div_lt_upper_bound; lia).
    lia. }
  by exists mv'.
Qed.

(** The capacity of the bitmap in rows is computed as an [int]: with
    2^25 words it wraps to a negative number and the scan is skipped,
    although the bitmap is large enough for any column. *)
Lemma AndWhereGreaterThan_capacity_wraps set value (mv : list Z) :
  Length mv = 2 ^ 25 ->
  IndexSetN.AndWhereGreaterThan set value mv = Returned tt mv.
Proof.
  intros Hmv. unfold IndexSetN.AndWhereGreaterThan. rewrite Hmv.
  change (to_int32 (2 ^ 25 * 64)) with (- 2 ^ 31).
  assert (0 <= Length set) by (unfold Length; lia).
  destruct (Z.ltb_spec (- 2 ^ 31) (Length set)); [done | lia].
Qed.

(** C4. An empty column with a one-word bitmap: the capacity guard does
    not fire, the scan would return with the bitmap unchanged, but the
    call raises [IndexOutOfRangeException] before reaching it. *)
Theorem AndWhereGreaterThan_empty_set_throws :
  (Length [255] * 64 <? Length []) = false /\
  IndexSetN.AndWhereGreaterThan [] 0 [255] = IndexOutOfRangeException /\
  run (AndWhereGreaterThanInternal [] (Length []) 0) [255] = Returned tt [255].
Proof. by vm_compute. Qed.

(** * Further properties of the scan *)

Lemma lor_word64 a b : is_word64 a -> is_word64 b -> is_word64 (Z.lor a b).
Proof.
  unfold is_word64. intros Ha Hb. split; [apply Z.lor_nonneg; lia|].
  destruct (Z.eq_dec (Z.lor a b) 0) as [->|Hne]; [lia|].
  assert (0 <= Z.lor a b) by (apply Z.lor_nonneg; lia).
  apply Z.log2_lt_cancel. rewrite Z.log2_pow2, Z.log2_lor by lia.
  apply Z.max_lub_lt.
  - destruct (Z.eq_dec a 0) as [->|?]; [simpl; lia|]. apply Z.log2_lt_pow2; lia.
  - destruct (Z.eq_dec b 0) as [->|?]; [simpl; lia|]. apply Z.log2_lt_pow2; lia.
Qed.

Lemma land_le a b : 0 <= a -> 0 <= b -> Z.land a b <= a.
Proof.
  intros Ha Hb. rewrite <- (Z.lor_ldiff_and a b) at 2.
  assert (0 <= Z.ldiff a b) by (apply Z.ldiff_nonneg; lia).
  rewrite <- Z.add_nocarry_lor; [lia|].
  apply Z.bits_inj'. intros n Hn.
  rewrite Z.land_spec, Z.ldiff_spec, Z.land_spec, Z.bits_0.
  destruct (Z.testbit a n), (Z.testbit b n); reflexivity.
Qed.

Lemma land_word64 a b : is_word64 a -> is_word64 b -> is_word64 (Z.land a b).
Proof.
  unfold is_word64. intros Ha Hb. split; [apply Z.land_nonneg; lia|].
  pose proof (land_le a b). lia.
Qed.

Lemma merged_word64 bOp B R : is_word64 B -> is_word64 R -> is_word64 (merged bOp B R).
Proof.
  intros HB HR. destruct bOp; simpl.
  - by apply land_word64.
  - apply land_word64; [done | apply not64_range].
  - by apply lor_word64.
Qed.

Lemma merged_testbit bOp B R j :
  0 <= j < 64 ->
  Z.testbit (merged bOp B R) j = merge_bit bOp (Z.testbit B j) (Z.testbit R j).
Proof.
  intros Hj. destruct bOp; simpl.
  - apply Z.land_spec.
  - by rewrite Z.land_spec, not64_testbit.
  - apply Z.lor_spec.
Qed.

Lemma merged_idempotent bOp B R : merged bOp (merged bOp B R) R = merged bOp B R.
Proof.
  destruct bOp; simpl.
  - by rewrite <- Z.land_assoc, Z.land_diag.
  - by rewrite <- Z.land_assoc, Z.land_diag.
  - by rewrite <- Z.lor_assoc, Z.lor_diag.
Qed.

Lemma merged_commute bOp B R1 R2 :
  merged bOp (merged bOp B R1) R2 = merged bOp (merged bOp B R2) R1.
Proof.
  destruct bOp; simpl.
  - by rewrite <- !Z.land_assoc, (Z.land_comm R1).
  - by rewrite <- !Z.land_assoc, (Z.land_comm (not64 R1)).
  - by rewrite <- !Z.lor_assoc, (Z.lor_comm R1).
Qed.

Lemma Where_tail_word64 cOp set len value (fuel : nat) :
  forall i r i' r',
    Where_tail cOp set len value fuel i r = Some (i', r') ->
    is_word64 r -> is_word64 r'.
Proof.
  induction fuel as [|fuel IH]; intros i r i' r' Hrun Hr; [done|].
  cbn [Where_tail] in Hrun. destruct (i <? len).
  - destruct (index set i) as [b|]; [|done]. simpl in Hrun.
    apply IH in Hrun; [done|].
    destruct (tail_compare cOp value b); [|done].
    apply lor_word64; [done|].
    rewrite Z.shiftl_1_l, land_63. unfold is_word64.
    pose proof (Z.mod_pos_bound i 64 ltac:(lia)).
    split; [apply Z.pow_nonneg; lia|]. apply Z.pow_lt_mono_r; lia.
  - by injection Hrun as <- <-.
Qed.

Lemma tail_result_word64 cOp set len value R :
  tail_result cOp set len value = Some R -> is_word64 R.
Proof.
  unfold tail_result. intros HR.
  destruct (Where_tail cOp set len value (S (Z.to_nat len)) (blockLength len) 0)
    as [[i r]|] eqn:Htail; [|done].
  simpl in HR. injection HR as <-.
  apply (Where_tail_word64 _ _ _ _ _ _ _ _ _ Htail). unfold is_word64. lia.
Qed.

Lemma words_for_cases len :
  0 <= len ->
  0 <= len / 64 /\ 0 <= len mod 64 < 64 /\ len = 64 * (len / 64) + len mod 64 /\
  (len mod 64 = 0 -> words_for len = len / 64) /\
  (0 < len mod 64 -> words_for len = len / 64 + 1).
Proof.
  intros Hlen. pose proof (Z.div_mod len 64 ltac:(lia)).
  pose proof (Z.mod_pos_bound len 64 ltac:(lia)).
  assert (0 <= len / 64) by (apply Z.div_pos; lia).
  unfold words_for. repeat split; try lia.
  - intros. symmetry. apply Z.div_unique with (r := 63); lia.
  - intros. symmetry. apply Z.div_unique with (r := len mod 64 - 1); lia.
Qed.

(** Every word of the bitmap after a scan, from the word before it and
    the result word of its block or of the tail. *)
Lemma Where_words cOp bOp sign set len value (mv : list Z) :
  0 <= len <= Length set -> words_for len <= Length mv ->
  exists mv',
    Where cOp bOp sign set len value mv = Some (tt, mv') /\
    length mv' = length mv /\
    (forall w : nat, Z.of_nat w < len / 64 ->
       exists R, block_result cOp sign set value (64 * Z.of_nat w) = Some R /\
         is_word64 R /\
         (forall j, 0 <= j < 64 ->
            Z.testbit R j = lane_compare cOp sign (row set (64 * Z.of_nat w + j)) value) /\
         mv' !!! w = merged bOp (mv !!! w) R) /\
    (0 < len mod 64 ->
       exists R, tail_result cOp set len value = Some R /\
         is_word64 R /\
         (forall j, 0 <= j ->
            Z.testbit R j
            = (j <? len mod 64) && tail_compare cOp value (row set (blockLength len + j))) /\
         mv' !!! Z.to_nat (len / 64) = merged bOp (mv !!! Z.to_nat (len / 64)) R) /\
    (forall w : nat, words_for len <= Z.of_nat w -> mv' !!! w = mv !!! w).
Proof.
  intros Hlen Hmv.
  destruct (words_for_cases len ltac:(lia)) as (Hq & Hr & Hdm & Hw0 & Hw1).
  destruct (Where_spec cOp bOp sign set len value Hlen mv Hmv)
    as (mv' & Hrun & Hsize & Hlook).
  exists mv'. split; [done|]. split; [done|]. split; [|split].
  - intros w Hw.
    destruct (block_result_bits cOp sign set value (64 * Z.of_nat w))
      as (R & HR & Hrange & Hbits); [lia | lia |].
    exists R. split; [done|]. split; [done|]. split; [done|].
    apply list_lookup_total_correct. rewrite Hlook, decide_True, HR by done.
    rewrite (list_lookup_lookup_total_lt mv); [done|].
    unfold Length in Hmv. destruct (Z.eq_dec (len mod 64) 0); lia.
  - intros Hpos.
    destruct (tail_result_bits cOp set len value Hlen) as (R & HR & Hbits).
    exists R. split; [done|]. split; [by apply (tail_result_word64 cOp set len value)|].
    split; [done|].
    apply list_lookup_total_correct. rewrite Hlook.
    rewrite decide_False by lia. rewrite decide_True, HR by lia.
    rewrite (list_lookup_lookup_total_lt mv); [done|].
    unfold Length in Hmv. lia.
  - intros w Hw. rewrite !list_lookup_total_alt, Hlook.
    rewrite decide_False by (destruct (Z.eq_dec (len mod 64) 0); lia).
    by rewrite decide_False by (destruct (Z.eq_dec (len mod 64) 0); lia).
Qed.

(** The bit of every row after a scan. *)
Lemma Where_row_bits cOp bOp sign set len value (mv : list Z) :
  0 <= len <= Length set -> words_for len <= Length mv ->
  exists mv',
    Where cOp bOp sign set len value mv = Some (tt, mv') /\
    length mv' = length mv /\
    forall i, 0 <= i < len ->
      Z.testbit (mv' !!! Z.to_nat (i / 64)) (i mod 64)
      = merge_bit bOp (Z.testbit (mv !!! Z.to_nat (i / 64)) (i mod 64))
                      (scan_bit cOp sign set len value i).
Proof.
  intros Hlen Hmv.
  destruct (words_for_cases len ltac:(lia)) as (Hq & Hr & Hdm & _ & _).
  destruct (Where_words cOp bOp sign set len value mv Hlen Hmv)
    as (mv' & Hrun & Hsize & Hblock & Htail & _).
  exists mv'. split; [done|]. split; [done|].
  intros i Hi. destruct (row_split i ltac:(lia)) as [Hsplit Hrange].
  unfold scan_bit. rewrite blockLength_div.
  destruct (Z.ltb_spec i (64 * (len / 64))) as [Hlt|Hge].
  - assert (Hw : i / 64 < len / 64) by (apply Z.div_lt_upper_bound; lia).
    destruct (Hblock (Z.to_nat (i / 64))) as (R & _ & _ & Hbits & ->).
    { assert (0 <= i / 64) by (apply Z.div_pos; lia). lia. }
    rewrite merged_testbit, Hbits by done. by rewrite <- Hsplit.
  - assert (Hw : i / 64 = len / 64).
    { symmetry. apply Z.div_unique with (r := i - 64 * (len / 64)); lia. }
    assert (Hj : i mod 64 = i - 64 * (len / 64)).
    { symmetry. apply Z.mod_unique with (q := len / 64); lia. }
    destruct Htail as (R & _ & _ & Hbits & Hword); [lia|].
    rewrite Hw, Hword, merged_testbit, Hbits by lia.
    rewrite blockLength_div. replace (64 * (len / 64) + i mod 64) with i by lia.
    destruct (Z.ltb_spec (i mod 64) (len mod 64)); [done | lia].
Qed.

Lemma scan_bit_naive cOp sign set len value i :
  Forall is_byte set -> is_byte value -> 0 <= i < len -> len <= Length set ->
  i < blockLength len \/ sign = Unsigned ->
  scan_bit cOp sign set len value i = naive_compare cOp sign (row set i) value.
Proof.
  intros Hset Hvalue Hi Hlen Hcase. unfold scan_bit.
  assert (Hb : is_byte (row set i)) by (apply row_is_byte; [done | lia]).
  destruct (Z.ltb_spec i (blockLength len)).
  - by apply lane_compare_naive.
  - destruct Hcase as [? | ->]; [lia|]. apply tail_compare_naive.
Qed.

Lemma list_eq_total (l1 l2 : list Z) :
  length l1 = length l2 -> (forall w : nat, l1 !!! w = l2 !!! w) -> l1 = l2.
Proof.
  intros Hlen Hw. apply list_eq_same_length with (length l2); [done | done |].
  intros w x y Hlt Hx Hy.
  apply list_lookup_total_correct in Hx, Hy. rewrite <- Hx, <- Hy. apply Hw.
Qed.

(** A scan acts on the bitmap word by word, and the word it combines
    into each bitmap word does not depend on the bitmap. *)
Lemma Where_wordwise cOp bOp sign set len value (mv : list Z) :
  0 <= len <= Length set -> words_for len <= Length mv ->
  exists mv',
    Where cOp bOp sign set len value mv = Some (tt, mv') /\
    length mv' = length mv /\
    forall w : nat,
      mv' !!! w = from_option (merged bOp (mv !!! w)) (mv !!! w)
                    (result_word cOp sign set len value w).
Proof.
  intros Hlen Hmv.
  destruct (words_for_cases len ltac:(lia)) as (Hq & Hr & Hdm & Hw0 & Hw1).
  destruct (Where_words cOp bOp sign set len value mv Hlen Hmv)
    as (mv' & Hrun & Hsize & Hblock & Htail & Hrest).
  exists mv'. split; [done|]. split; [done|].
  intros w. unfold result_word.
  destruct (decide (Z.of_nat w < len / 64)) as [Hw|Hw].
  - destruct (Hblock w Hw) as (R & -> & _ & _ & ->). done.
  - destruct (decide (Z.of_nat w = len / 64 /\ 0 < len mod 64)) as [[Heq Hpos]|Hno].
    + destruct (Htail Hpos) as (R & -> & _ & _ & Hword).
      replace w with (Z.to_nat (len / 64)) by lia. by rewrite Hword.
    + simpl. apply Hrest. destruct (Z.eq_dec (len mod 64) 0); lia.
Qed.

(** X1. For every operator and combinator, a scan of a column of bytes
    into a bitmap that is large enough leaves in the bit of each row
    the combinator applied to the bit it had and to the naive comparison
    of the row against the scalar: for every row in [Unsigned] mode, and
    for the rows of the full 64-row blocks in [Signed] mode. *)
Theorem Where_row_bit_combines_comparison cOp bOp sign set len value (mv : list Z) :
  Forall is_byte set -> is_byte value ->
  0 <= len <= Length set -> words_for len <= Length mv ->
  exists mv',
    Where cOp bOp sign set len value mv = Some (tt, mv') /\
    forall i, 0 <= i < len ->
      i < blockLength len \/ sign = Unsigned ->
      Z.testbit (mv' !!! Z.to_nat (i / 64)) (i mod 64)
      = merge_bit bOp (Z.testbit (mv !!! Z.to_nat (i / 64)) (i mod 64))
                      (naive_compare cOp sign (row set i) value).
Proof.
  intros Hset Hvalue Hlen Hmv.
  destruct (Where_row_bits cOp bOp sign set len value mv Hlen Hmv)
    as (mv' & Hrun & _ & Hbits).
  exists mv'. split; [done|]. intros i Hi Hcase.
  rewrite Hbits by done. f_equal. apply scan_bit_naive; (done || lia).
Qed.

Lemma Where_row_bit_combines_comparison_witness :
  exists mv',
    Where LessThanOrEqual AndNot Unsigned [5; 200; 15; 20] 4 15 [0xFF] = Some (tt, mv') /\
    forall i, 0 <= i < 4 ->
      i < blockLength 4 \/ Unsigned = Unsigned ->
      Z.testbit (mv' !!! Z.to_nat (i / 64)) (i mod 64)
      = merge_bit AndNot (Z.testbit ([0xFF] !!! Z.to_nat (i / 64)) (i mod 64))
                         (naive_compare LessThanOrEqual Unsigned (row [5; 200; 15; 20] i) 15).
Proof.
  apply (Where_row_bit_combines_comparison LessThanOrEqual AndNot Unsigned
           [5; 200; 15; 20] 4 15 [0xFF]).
  - repeat constructor; unfold is_byte; lia.
  - unfold is_byte; lia.
  - change (Length [5; 200; 15; 20]) with 4. lia.
  - change (words_for 4) with 1. change (Length [255]) with 1. lia.
Defined.

(** X2. The exported entry points on a column of bytes and a bitmap
    that is large enough: after [WhereGreaterThan] the bit of row [i] is
    its old bit and [set[i] > value], after [WhereLessThan] its old bit
    and [set[i] < value], after [WhereEquals] its old bit and
    [set[i] == value], the bytes compared as unsigned. *)
Theorem CompareToVector_row_bits (positive and : bool) set len value (mv : list Z) :
  Forall is_byte set -> is_byte value ->
  0 <= len <= Length set -> words_for len <= Length mv ->
  (exists mv',
     CompareToVector.WhereGreaterThan positive and set len value mv = Some (tt, mv') /\
     forall i, 0 <= i < len ->
       Z.testbit (mv' !!! Z.to_nat (i / 64)) (i mod 64)
       = Z.testbit (mv !!! Z.to_nat (i / 64)) (i mod 64) && (row set i >? value)) /\
  (exists mv',
     CompareToVector.WhereLessThan positive and set len value mv = Some (tt, mv') /\
     forall i, 0 <= i < len ->
       Z.testbit (mv' !!! Z.to_nat (i / 64)) (i mod 64)
       = Z.testbit (mv !!! Z.to_nat (i / 64)) (i mod 64) && (row set i <? value)) /\
  (exists mv',
     CompareToVector.WhereEquals positive and set len value mv = Some (tt, mv') /\
     forall i, 0 <= i < len ->
       Z.testbit (mv' !!! Z.to_nat (i / 64)) (i mod 64)
       = Z.testbit (mv !!! Z.to_nat (i / 64)) (i mod 64) && (row set i =? value)).
Proof.
  intros Hset Hvalue Hlen Hmv.
  unfold CompareToVector.WhereGreaterThan, CompareToVector.WhereLessThan,
    CompareToVector.WhereEquals.
  repeat split.
  - destruct (Where_row_bits GreaterThan And Unsigned set len value mv Hlen Hmv)
      as (mv' & Hrun & _ & Hbits).
    exists mv'. split; [done|]. intros i Hi.
    rewrite Hbits, scan_bit_naive by (done || lia || by right). done.
  - destruct (Where_row_bits LessThan And Unsigned set len value mv Hlen Hmv)
      as (mv' & Hrun & _ & Hbits).
    exists mv'. split; [done|]. intros i Hi.
    rewrite Hbits, scan_bit_naive by (done || lia || by right). done.
  - destruct (Where_row_bits Equals And Unsigned set len value mv Hlen Hmv)
      as (mv' & Hrun & _ & Hbits).
    exists mv'. split; [done|]. intros i Hi.
    rewrite Hbits, scan_bit_naive by (done || lia || by right). done.
Qed.

(** X3. In the tail word of a scan whose row count is not a multiple
    of 64, the bits above the last row come out of the combinator with
    a zero result bit: [And] clears them, [Or] and [AndNot] leave them
    as they were. *)
Theorem Where_bits_above_last_row cOp bOp sign set len value (mv : list Z) :
  0 <= len <= Length set -> words_for len <= Length mv -> 0 < len mod 64 ->
  exists mv',
    Where cOp bOp sign set len value mv = Some (tt, mv') /\
    forall j, len mod 64 <= j < 64 ->
      Z.testbit (mv' !!! Z.to_nat (len / 64)) j
      = match bOp with
        | And => false
        | Or | AndNot => Z.testbit (mv !!! Z.to_nat (len / 64)) j
        end.
Proof.
  intros Hlen Hmv Hpos.
  destruct (Where_words cOp bOp sign set len value mv Hlen Hmv)
    as (mv' & Hrun & _ & _ & Htail & _).
  destruct (Htail Hpos) as (R & _ & _ & Hbits & Hword).
  exists mv'. split; [done|]. intros j Hj.
  rewrite Hword, merged_testbit, Hbits by lia.
  destruct (Z.ltb_spec j (len mod 64)); [lia|]. simpl.
  destruct bOp; simpl.
  - apply andb_false_r.
  - apply andb_true_r.
  - apply orb_false_r.
Qed.

Lemma Where_bits_above_last_row_witness :
  exists mv',
    Where GreaterThan And Unsigned [5; 200; 15] 3 7 [0xFFFFFFFFFFFFFFFF] = Some (tt, mv') /\
    forall j, 3 mod 64 <= j < 64 ->
      Z.testbit (mv' !!! Z.to_nat (3 / 64)) j = false.
Proof.
  apply (Where_bits_above_last_row GreaterThan And Unsigned [5; 200; 15] 3 7
           [0xFFFFFFFFFFFFFFFF]).
  - change (Length [5; 200; 15]) with 3. lia.
  - change (words_for 3) with 1. change (Length [0xFFFFFFFFFFFFFFFF]) with 1. lia.
  - change (3 mod 64) with 3. lia.
Defined.

(** X4. A scan keeps the bitmap a sequence of 64-bit words: when every
    word is in [0, 2^64) before the scan, every word is after it. *)
Theorem Where_keeps_words_64_bit cOp bOp sign set len value (mv : list Z) :
  Forall is_word64 mv ->
  0 <= len <= Length set -> words_for len <= Length mv ->
  exists mv', Where cOp bOp sign set len value mv = Some (tt, mv') /\ Forall is_word64 mv'.
Proof.
  intros Hwords Hlen Hmv.
  destruct (words_for_cases len ltac:(lia)) as (Hq & Hr & Hdm & Hw0 & Hw1).
  destruct (Where_words cOp bOp sign set len value mv Hlen Hmv)
    as (mv' & Hrun & Hsize & Hblock & Htail & Hrest).
  exists mv'. split; [done|].
  apply Forall_lookup_2. intros w x Hx.
  assert (Hlt : (w < length mv)%nat) by (rewrite <- Hsize; by eapply lookup_lt_Some).
  assert (Hold : is_word64 (mv !!! w)).
  { apply (Forall_lookup_1 _ _ w _ Hwords). by apply list_lookup_lookup_total_lt. }
  apply list_lookup_total_correct in Hx. subst x.
  destruct (decide (Z.of_nat w < len / 64)) as [Hw|Hw].
  - destruct (Hblock w Hw) as (R & _ & HR & _ & ->). by apply merged_word64.
  - destruct (decide (Z.of_nat w = len / 64 /\ 0 < len mod 64)) as [[Heq Hpos]|Hno].
    + destruct (Htail Hpos) as (R & HRt & HR & _ & Hword).
      replace w with (Z.to_nat (len / 64)) in * by lia.
      rewrite Hword. by apply merged_word64.
    + rewrite Hrest; [done|]. destruct (Z.eq_dec (len mod 64) 0); lia.
Qed.

Lemma Where_keeps_words_64_bit_witness :
  exists mv',
    Where NotEquals Or Signed [5; 200; 15] 3 200 [7; 9] = Some (tt, mv') /\
    Forall is_word64 mv'.
Proof.
  apply (Where_keeps_words_64_bit NotEquals Or Signed [5; 200; 15] 3 200 [7; 9]).
  - repeat constructor; unfold is_word64; lia.
  - change (Length [5; 200; 15]) with 3. lia.
  - change (words_for 3) with 1. change (Length [7; 9]) with 2. lia.
Defined.

(** X5. Running the same scan a second time changes nothing, for each
    of the three combinators. *)
Theorem Where_twice_is_once cOp bOp sign set len value (mv : list Z) :
  0 <= len <= Length set -> words_for len <= Length mv ->
  exists mv',
    Where cOp bOp sign set len value mv = Some (tt, mv') /\
    Where cOp bOp sign set len value mv' = Some (tt, mv').
Proof.
  intros Hlen Hmv.
  destruct (Where_wordwise cOp bOp sign set len value mv Hlen Hmv)
    as (mv' & Hrun & Hsize & Hword).
  assert (Hmv' : words_for len <= Length mv') by (unfold Length in *; lia).
  destruct (Where_wordwise cOp bOp sign set len value mv' Hlen Hmv')
    as (mv'' & Hrun' & Hsize' & Hword').
  exists mv'. split; [done|]. rewrite Hrun'. do 2 f_equal.
  apply list_eq_total; [done|]. intros w. rewrite Hword', Hword.
  destruct (result_word cOp sign set len value w); simpl; [|done].
  apply merged_idempotent.
Qed.

Lemma Where_twice_is_once_witness :
  exists mv',
    Where GreaterThanOrEqual AndNot Unsigned [5; 200; 15] 3 15 [0xFF] = Some (tt, mv') /\
    Where GreaterThanOrEqual AndNot Unsigned [5; 200; 15] 3 15 mv' = Some (tt, mv').
Proof.
  apply (Where_twice_is_once GreaterThanOrEqual AndNot Unsigned [5; 200; 15] 3 15 [0xFF]).
  - change (Length [5; 200; 15]) with 3. lia.
  - change (words_for 3) with 1. change (Length [255]) with 1. lia.
Defined.

(** X6. Two scans with the same combinator commute: scanning one
    column and then another into a bitmap large enough for both gives
    the same bitmap in either order, whatever the operators, signedness
    modes, scalars and row counts. *)
Theorem Where_scans_commute bOp cOp1 sign1 set1 len1 value1 cOp2 sign2 set2 len2 value2
    (mv : list Z) :
  0 <= len1 <= Length set1 -> words_for len1 <= Length mv ->
  0 <= len2 <= Length set2 -> words_for len2 <= Length mv ->
  exists mv1 mv2 mv',
    Where cOp1 bOp sign1 set1 len1 value1 mv = Some (tt, mv1) /\
    Where cOp2 bOp sign2 set2 len2 value2 mv1 = Some (tt, mv') /\
    Where cOp2 bOp sign2 set2 len2 value2 mv = Some (tt, mv2) /\
    Where cOp1 bOp sign1 set1 len1 value1 mv2 = Some (tt, mv').
Proof.
  intros Hlen1 Hmv1 Hlen2 Hmv2.
  destruct (Where_wordwise cOp1 bOp sign1 set1 len1 value1 mv Hlen1 Hmv1)
    as (mv1 & Hrun1 & Hsize1 & Hword1).
  destruct (Where_wordwise cOp2 bOp sign2 set2 len2 value2 mv Hlen2 Hmv2)
    as (mv2 & Hrun2 & Hsize2 & Hword2).
  destruct (Where_wordwise cOp2 bOp sign2 set2 len2 value2 mv1 Hlen2)
    as (mv12 & Hrun12 & Hsize12 & Hword12); [unfold Length in *; lia|].
  destruct (Where_wordwise cOp1 bOp sign1 set1 len1 value1 mv2 Hlen1)
    as (mv21 & Hrun21 & Hsize21 & Hword21); [unfold Length in *; lia|].
  exists mv1, mv2, mv12. split; [done|]. split; [done|]. split; [done|].
  rewrite Hrun21. do 2 f_equal.
  apply list_eq_total; [lia|]. intros w.
  rewrite Hword21, Hword12, Hword1, Hword2.
  destruct (result_word cOp1 sign1 set1 len1 value1 w),
           (result_word cOp2 sign2 set2 len2 value2 w); simpl; try done.
  apply merged_commute.
Qed.

Lemma Where_scans_commute_witness :
  exists mv1 mv2 mv',
    Where GreaterThan And Unsigned [5; 200; 15] 3 7 [0xFF] = Some (tt, mv1) /\
    Where LessThan And Signed [1; 2; 3; 4] 4 3 mv1 = Some (tt, mv') /\
    Where LessThan And Signed [1; 2; 3; 4] 4 3 [0xFF] = Some (tt, mv2) /\
    Where GreaterThan And Unsigned [5; 200; 15] 3 7 mv2 = Some (tt, mv').
Proof.
  apply (Where_scans_commute And GreaterThan Unsigned [5; 200; 15] 3 7
           LessThan Signed [1; 2; 3; 4] 4 3 [0xFF]).
  - change (Length [5; 200; 15]) with 3. lia.
  - change (words_for 3) with 1. change (Length [255]) with 1. lia.
  - change (Length [1; 2; 3; 4]) with 4. lia.
  - change (words_for 4) with 1. change (Length [255]) with 1. lia.
Defined.

Lemma CompareToVector_row_bits_witness :
  (exists mv',
     CompareToVector.WhereGreaterThan true false [5; 200; 15] 3 7 [0xFF] = Some (tt, mv') /\
     forall i, 0 <= i < 3 ->
       Z.testbit (mv' !!! Z.to_nat (i / 64)) (i mod 64)
       = Z.testbit ([0xFF] !!! Z.to_nat (i / 64)) (i mod 64) && (row [5; 200; 15] i >? 7)) /\
  (exists mv',
     CompareToVector.WhereLessThan true false [5; 200; 15] 3 7 [0xFF] = Some (tt, mv') /\
     forall i, 0 <= i < 3 ->
       Z.testbit (mv' !!! Z.to_nat (i / 64)) (i mod 64)
       = Z.testbit ([0xFF] !!! Z.to_nat (i / 64)) (i mod 64) && (row [5; 200; 15] i <? 7)) /\
  (exists mv',
     CompareToVector.WhereEquals true false [5; 200; 15] 3 7 [0xFF] = Some (tt, mv') /\
     forall i, 0 <= i < 3 ->
       Z.testbit (mv' !!! Z.to_nat (i / 64)) (i mod 64)
       = Z.testbit ([0xFF] !!! Z.to_nat (i / 64)) (i mod 64) && (row [5; 200; 15] i =? 7)).
Proof.
  apply (CompareToVector_row_bits true false [5; 200; 15] 3 7 [0xFF]).
  - repeat constructor; unfold is_byte; lia.
  - unfold is_byte; lia.
  - change (Length [5; 200; 15]) with 3. lia.
  - change (words_for 3) with 1. change (Length [255]) with 1. lia.
Defined.

(** * Counting the rows of a scan *)

Lemma count_below_ext (g h : Z -> bool) (n : nat) :
  (forall i, 0 <= i < Z.of_nat n -> g i = h i) -> count_below g n = count_below h n.
Proof.
  induction n as [|n IH]; intros Hext; [done|].
  cbn [count_below]. rewrite IH by (intros; apply Hext; lia).
  by rewrite Hext by lia.
Qed.

Lemma count_below_add (g : Z -> bool) (n m : nat) :
  count_below g (n + m) = count_below g n + count_below (fun j => g (Z.of_nat n + j)) m.
Proof.
  induction m as [|m IH].
  - rewrite Nat.add_0_r. simpl. lia.
  - rewrite Nat.add_succ_r. cbn [count_below]. rewrite IH, Nat2Z.inj_add. lia.
Qed.

Lemma count_below_false (g : Z -> bool) (n : nat) :
  (forall i, 0 <= i < Z.of_nat n -> g i = false) -> count_below g n = 0.
Proof.
  induction n as [|n IH]; intros Hg; [done|].
  cbn [count_below]. rewrite IH by (intros; apply Hg; lia).
  by rewrite Hg by lia.
Qed.

Lemma count_below_range (g : Z -> bool) (n : nat) : 0 <= count_below g n <= Z.of_nat n.
Proof.
  induction n as [|n IH]; [simpl; lia|].
  cbn [count_below]. destruct (g (Z.of_nat n)); simpl Z.b2z; lia.
Qed.

Lemma bits_below_count (n : nat) w : bits_below n w = count_below (Z.testbit w) n.
Proof. induction n as [|n IH]; [done|]. cbn [bits_below count_below]. by rewrite IH. Qed.

Lemma bit_count_count w : bit_count w = count_below (Z.testbit w) 64.
Proof. apply (bits_below_count 64). Qed.

(** The bits of a bitmap counted word by word are its bits counted row
    by row. *)
Lemma total_bit_count_rows (mv : list Z) :
  forall g : Z -> bool,
    (forall (w : nat) j, (w < length mv)%nat -> 0 <= j < 64 ->
       Z.testbit (mv !!! w) j = g (64 * Z.of_nat w + j)) ->
    total_bit_count mv = count_below g (64 * length mv).
Proof.
  induction mv as [|x mv IH]; intros g Hg; [done|].
  rewrite total_bit_count_cons.
  replace (64 * length (x :: mv))%nat with (64 + 64 * length mv)%nat by (simpl; lia).
  rewrite count_below_add, bit_count_count. f_equal.
  - apply count_below_ext. intros j Hj.
    pose proof (Hg 0%nat j ltac:(simpl; lia) Hj) as H0.
    change ((x :: mv) !!! 0%nat) with x in H0.
    by replace (64 * Z.of_nat 0 + j) with j in H0 by lia.
  - apply IH. intros w j Hw Hj.
    pose proof (Hg (S w) j ltac:(simpl; lia) Hj) as HS.
    change ((x :: mv) !!! S w) with (mv !!! w) in HS.
    by replace (64 * Z.of_nat (S w) + j) with (Z.of_nat 64 + (64 * Z.of_nat w + j)) in HS by lia.
Qed.

(** When the bits of a bitmap are, row by row, a predicate on the rows
    below [len] and zero from [len] on, its bit count is the number of
    rows below [len] that satisfy the predicate. *)
Lemma total_bit_count_matching (mv : list Z) (len : Z) (g : Z -> bool) :
  0 <= len <= 64 * Length mv ->
  (forall (w : nat) j, (w < length mv)%nat -> 0 <= j < 64 ->
     Z.testbit (mv !!! w) j = (64 * Z.of_nat w + j <? len) && g (64 * Z.of_nat w + j)) ->
  total_bit_count mv = count_below g (Z.to_nat len).
Proof.
  unfold Length. intros Hlen Hbits.
  rewrite (total_bit_count_rows mv (fun i => (i <? len) && g i)) by done.
  replace (64 * length mv)%nat with (Z.to_nat len + (64 * length mv - Z.to_nat len))%nat by lia.
  rewrite count_below_add.
  match goal with
  | |- _ + count_below ?h ?m = _ =>
      assert (Hzero : count_below h m = 0);
      [apply count_below_false; intros i Hi; cbv beta;
       destruct (Z.ltb_spec (Z.of_nat (Z.to_nat len) + i) len); [lia | done]
      | rewrite Hzero, Z.add_0_r]
  end.
  apply count_below_ext. intros i Hi.
  destruct (Z.ltb_spec i len); [done | lia].
Qed.

(** Every bit of every word after a scan. *)
Lemma Where_all_bits cOp bOp sign set len value (mv : list Z) :
  0 <= len <= Length set -> words_for len <= Length mv ->
  exists mv',
    Where cOp bOp sign set len value mv = Some (tt, mv') /\
    length mv' = length mv /\
    forall (w : nat) j, 0 <= j < 64 ->
      Z.testbit (mv' !!! w) j
      = if Z.of_nat w <? words_for len
        then merge_bit bOp (Z.testbit (mv !!! w) j)
               ((64 * Z.of_nat w + j <? len)
                && scan_bit cOp sign set len value (64 * Z.of_nat w + j))
        else Z.testbit (mv !!! w) j.
Proof.
  intros Hlen Hmv.
  destruct (words_for_cases len ltac:(lia)) as (Hq & Hr & Hdm & Hw0 & Hw1).
  destruct (Where_words cOp bOp sign set len value mv Hlen Hmv)
    as (mv' & Hrun & Hsize & Hblock & Htail & Hrest).
  exists mv'. split; [done|]. split; [done|].
  intros w j Hj. unfold scan_bit. rewrite blockLength_div.
  destruct (Z.ltb_spec (Z.of_nat w) (words_for len)) as [Hin|Hout].
  - destruct (decide (Z.of_nat w < len / 64)) as [Hw|Hw].
    + destruct (Hblock w Hw) as (R & _ & _ & Hbits & ->).
      rewrite merged_testbit, Hbits by done.
      destruct (Z.ltb_spec (64 * Z.of_nat w + j) len); [|lia].
      destruct (Z.ltb_spec (64 * Z.of_nat w + j) (64 * (len / 64))); [done | lia].
    + assert (Hpos : 0 < len mod 64) by (destruct (Z.eq_dec (len mod 64) 0); lia).
      assert (Heq : Z.of_nat w = len / 64) by lia.
      destruct (Htail Hpos) as (R & _ & _ & Hbits & Hword).
      replace w with (Z.to_nat (len / 64)) by lia.
      rewrite Hword, merged_testbit, Hbits by lia. rewrite blockLength_div.
      rewrite Z2Nat.id by lia. f_equal.
      destruct (Z.ltb_spec (64 * (len / 64) + j) (64 * (len / 64))); [lia|].
      destruct (Z.ltb_spec j (len mod 64)), (Z.ltb_spec (64 * (len / 64) + j) len);
        (done || lia).
  - by rewrite Hrest.
Qed.

Lemma is_word64_ones_testbit j : 0 <= j < 64 -> Z.testbit (2 ^ 64 - 1) j = true.
Proof. intros Hj. change (2 ^ 64 - 1) with (Z.ones 64). apply Z.ones_spec_low. lia. Qed.

(** The representation invariant of an [Unsigned] scan. *)
Lemma scan_represents cOp bOp set len value (mv : list Z) (P : Z -> bool) :
  Forall is_byte set -> is_byte value ->
  0 <= len <= Length set -> words_for len <= Length mv ->
  represents mv len P ->
  exists mv',
    Where cOp bOp Unsigned set len value mv = Some (tt, mv') /\
    represents mv' len
      (fun i => merge_bit bOp (P i) (naive_compare cOp Unsigned (row set i) value)).
Proof.
  intros Hset Hvalue Hlen Hmv Hrep.
  destruct (Where_all_bits cOp bOp Unsigned set len value mv Hlen Hmv)
    as (mv' & Hrun & Hsize & Hbits).
  exists mv'. split; [done|]. intros w j Hw Hj.
  rewrite Hsize in Hw. rewrite Hbits, Hrep by done.
  destruct (words_for_cases len ltac:(lia)) as (Hq & Hr & Hdm & Hw0 & Hw1).
  destruct (Z.ltb_spec (64 * Z.of_nat w + j) len) as [Hrow|Hrow].
  - rewrite scan_bit_naive by (done || lia || by right).
    destruct (Z.ltb_spec (Z.of_nat w) (words_for len)); [done|].
    destruct (Z.eq_dec (len mod 64) 0); lia.
  - simpl. destruct (Z.of_nat w <? words_for len); [by destruct bOp|].
    rewrite Hrep by done. destruct (Z.ltb_spec (64 * Z.of_nat w + j) len); [lia | done].
Qed.

(** X7. A scan of a column of bytes in [Unsigned] mode keeps the bitmap
    a representation of a row predicate: when the bitmap represents [P]
    on the rows below [len], after the scan it represents the combinator
    applied to [P] and the naive comparison of the row against the
    scalar. *)
Theorem Where_keeps_representation cOp bOp set len value (mv : list Z) (P : Z -> bool) :
  Forall is_byte set -> is_byte value ->
  0 <= len <= Length set -> words_for len <= Length mv ->
  represents mv len P ->
  exists mv',
    Where cOp bOp Unsigned set len value mv = Some (tt, mv') /\
    represents mv' len
      (fun i => merge_bit bOp (P i) (naive_compare cOp Unsigned (row set i) value)).
Proof. apply scan_represents. Qed.

Lemma Where_keeps_representation_witness :
  exists mv',
    Where LessThan Or Unsigned [5; 200; 15] 3 100 [0] = Some (tt, mv') /\
    represents mv' 3
      (fun i => merge_bit Or ((fun _ => false) i)
                  (naive_compare LessThan Unsigned (row [5; 200; 15] i) 100)).
Proof.
  apply (Where_keeps_representation LessThan Or [5; 200; 15] 3 100 [0] (fun _ => false)).
  - repeat constructor; unfold is_byte; lia.
  - unfold is_byte; lia.
  - change (Length [5; 200; 15]) with 3. lia.
  - change (words_for 3) with 1. change (Length [0]) with 1. lia.
  - intros w j Hw Hj. destruct w as [|w]; [|simpl in Hw; lia].
    change ([0] !!! 0%nat) with 0. rewrite Z.bits_0. by rewrite andb_false_r.
Defined.

(** The bit count of a representation. *)
Lemma count_represented (mv : list Z) (len : Z) (P : Z -> bool) :
  0 <= len <= INT_MAX -> len <= 64 * Length mv ->
  represents mv len P ->
  CountInternal (Length mv) mv = Some (count_below P (Z.to_nat len), mv).
Proof.
  unfold INT_MAX. intros Hlen Hcap Hrep.
  assert (Htotal : total_bit_count mv = count_below P (Z.to_nat len)).
  { apply total_bit_count_matching; [lia | exact Hrep]. }
  pose proof (count_below_range P (Z.to_nat len)) as Hrange.
  assert (Htake : take (Z.to_nat (Length mv)) mv = mv).
  { apply take_ge. unfold Length. lia. }
  rewrite CountInternal_spec; rewrite ?Htake, ?Htotal; try (unfold Length; lia).
  do 2 f_equal. unfold to_int32. cbv zeta. rewrite Z.mod_small by lia.
  destruct (Z.ltb_spec (count_below P (Z.to_nat len)) (2 ^ 31)); lia.
Qed.

(** X8. [CountInternal] over a whole bitmap that represents a row
    predicate on [len <= INT_MAX] rows returns the number of rows below
    [len] that satisfy the predicate, and leaves the bitmap as it was. *)
Theorem CountInternal_counts_represented_rows (mv : list Z) (len : Z) (P : Z -> bool) :
  0 <= len <= INT_MAX -> len <= 64 * Length mv ->
  represents mv len P ->
  CountInternal (Length mv) mv = Some (count_below P (Z.to_nat len), mv).
Proof. apply count_represented. Qed.

Lemma CountInternal_counts_represented_rows_witness :
  CountInternal (Length [5]) [5] = Some (count_below (fun i => Z.even i) (Z.to_nat 3), [5]).
Proof.
  apply (CountInternal_counts_represented_rows [5] 3 (fun i => Z.even i)).
  - unfold INT_MAX. lia.
  - change (Length [5]) with 1. lia.
  - intros w j Hw Hj. destruct w as [|w]; [|simpl in Hw; lia].
    change ([5] !!! 0%nat) with 5. change (64 * Z.of_nat 0 + j) with j.
    assert (Hcases : j = 0 \/ j = 1 \/ j = 2 \/ 3 <= j < 64) by lia.
    destruct Hcases as [-> | [-> | [-> | Hhigh]]]; [done | done | done |].
    destruct (Z.ltb_spec j 3); [lia|]. simpl.
    change 5 with (5 mod 2 ^ 3). apply Z.mod_pow2_bits_high. lia.
Defined.

(** An [And] scan into a bitmap of exact size yields a representation. *)
Lemma and_scan_represents cOp set len value (mv : list Z) (P : Z -> bool) :
  Forall is_byte set -> is_byte value ->
  0 <= len <= Length set -> Length mv = words_for len ->
  (forall i, 0 <= i < len -> Z.testbit (mv !!! Z.to_nat (i / 64)) (i mod 64) = P i) ->
  exists mv',
    Where cOp And Unsigned set len value mv = Some (tt, mv') /\
    represents mv' len (fun i => P i && naive_compare cOp Unsigned (row set i) value).
Proof.
  intros Hset Hvalue Hlen Hsize HP.
  destruct (Where_all_bits cOp And Unsigned set len value mv Hlen ltac:(lia))
    as (mv' & Hrun & Hsize' & Hbits).
  exists mv'. split; [done|]. intros w j Hw Hj.
  rewrite Hbits by done.
  destruct (Z.ltb_spec (Z.of_nat w) (words_for len)); [|unfold Length in *; lia].
  simpl. destruct (Z.ltb_spec (64 * Z.of_nat w + j) len) as [Hrow|Hrow].
  - rewrite scan_bit_naive by (done || lia || by right).
    rewrite <- (HP (64 * Z.of_nat w + j)) by lia. simpl. do 2 f_equal.
    + f_equal. replace ((64 * Z.of_nat w + j) / 64) with (Z.of_nat w); [lia|].
      apply Z.div_unique with (r := j); lia.
    + apply Z.mod_unique with (q := Z.of_nat w); lia.
  - apply andb_false_r.
Qed.

(** X9. An [And] scan in [Unsigned] mode into a bitmap of exactly
    [ceil(len / 64)] words makes it a representation, whatever its bits
    above row [len] were: when the bit of every row [i < len] was [P i],
    the bitmap represents afterwards the rows where [P] holds and the
    naive comparison matches, with every bit above the last row zero. *)
Theorem Where_And_normalises cOp set len value (mv : list Z) (P : Z -> bool) :
  Forall is_byte set -> is_byte value ->
  0 <= len <= Length set -> Length mv = words_for len ->
  (forall i, 0 <= i < len -> Z.testbit (mv !!! Z.to_nat (i / 64)) (i mod 64) = P i) ->
  exists mv',
    Where cOp And Unsigned set len value mv = Some (tt, mv') /\
    represents mv' len (fun i => P i && naive_compare cOp Unsigned (row set i) value).
Proof. apply and_scan_represents. Qed.

Lemma Where_And_normalises_witness :
  exists mv',
    Where GreaterThan And Unsigned [5; 200; 15] 3 7 [0xFFFFFFFFFFFFFFFF] = Some (tt, mv') /\
    represents mv' 3
      (fun i => (fun _ => true) i
                && naive_compare GreaterThan Unsigned (row [5; 200; 15] i) 7).
Proof.
  apply (Where_And_normalises GreaterThan [5; 200; 15] 3 7 [0xFFFFFFFFFFFFFFFF]
           (fun _ => true)).
  - repeat constructor; unfold is_byte; lia.
  - unfold is_byte; lia.
  - change (Length [5; 200; 15]) with 3. lia.
  - reflexivity.
  - intros i Hi. rewrite Z.div_small, Z.mod_small by lia.
    change ([0xFFFFFFFFFFFFFFFF] !!! Z.to_nat 0) with (2 ^ 64 - 1).
    apply is_word64_ones_testbit. lia.
Defined.

(** * The managed entry points *)

Lemma total_bit_count_bound l : 0 <= total_bit_count l <= 64 * Length l.
Proof.
  unfold Length. induction l as [|w l IH]; [simpl; lia|].
  rewrite total_bit_count_cons. pose proof (bit_count_range w).
  cbn [length]. lia.
Qed.

Lemma total_bit_count_take (n : nat) l : total_bit_count (take n l) <= total_bit_count l.
Proof.
  revert n. induction l as [|w l IH]; intros [|n]; simpl take.
  - done.
  - done.
  - apply total_bit_count_nonneg.
  - rewrite !total_bit_count_cons. specialize (IH n). lia.
Qed.

(** X10. [CountInternal] over the first [n < 2^25] words of a bitmap
    cannot overflow its [int] result: it returns the exact number of one
    bits of these words, between 0 and [64 * n], and leaves the bitmap as
    it was. *)
Theorem CountInternal_exact_below_2_25_words (mv : list Z) (n : Z) :
  0 <= n <= Length mv -> n < 2 ^ 25 ->
  CountInternal n mv = Some (total_bit_count (take (Z.to_nat n) mv), mv) /\
  0 <= total_bit_count (take (Z.to_nat n) mv) <= 64 * n.
Proof.
  intros Hn Hsmall.
  pose proof (total_bit_count_bound (take (Z.to_nat n) mv)) as Hbound.
  assert (Hlen : Length (take (Z.to_nat n) mv) = n).
  { unfold Length in *. rewrite length_take. lia. }
  rewrite Hlen in Hbound. split; [|done].
  rewrite CountInternal_spec by lia. do 2 f_equal.
  unfold to_int32. cbv zeta. rewrite Z.mod_small by lia.
  destruct (Z.ltb_spec (total_bit_count (take (Z.to_nat n) mv)) (2 ^ 31)); lia.
Qed.

Lemma CountInternal_exact_below_2_25_words_witness :
  CountInternal 2 [5; 7; 1] = Some (total_bit_count (take (Z.to_nat 2) [5; 7; 1]), [5; 7; 1]) /\
  0 <= total_bit_count (take (Z.to_nat 2) [5; 7; 1]) <= 64 * 2.
Proof.
  apply (CountInternal_exact_below_2_25_words [5; 7; 1] 2).
  - change (Length [5; 7; 1]) with 3. lia.
  - lia.
Defined.

(** X11. [IndexSetN::Count] on an empty bitmap raises
    [IndexOutOfRangeException]; on a non-empty bitmap whose number of one
    bits fits an [int] it returns that number, counted over all words,
    and leaves the bitmap as it was. *)
Theorem IndexSetN_Count_counts_all_words (mv : list Z) :
  (mv = [] -> IndexSetN.Count mv = IndexOutOfRangeException) /\
  (mv <> [] -> total_bit_count mv <= INT_MAX ->
   IndexSetN.Count mv = Returned (total_bit_count mv) mv).
Proof.
  split; [by intros ->|]. unfold INT_MAX. intros Hne Hfit.
  unfold IndexSetN.Count. destruct mv as [|w mv]; [done|].
  change ((w :: mv) !! 0%nat) with (Some w). cbv beta iota.
  pose proof (total_bit_count_nonneg (w :: mv)) as Hpos.
  assert (Htake : take (Z.to_nat (Length (w :: mv))) (w :: mv) = w :: mv).
  { apply take_ge. unfold Length. lia. }
  unfold run. rewrite CountInternal_spec; rewrite ?Htake; try (unfold Length; lia).
  f_equal. unfold to_int32. cbv zeta. rewrite Z.mod_small by lia.
  destruct (Z.ltb_spec (total_bit_count (w :: mv)) (2 ^ 31)); lia.
Qed.

Lemma IndexSetN_Count_counts_all_words_witness :
  IndexSetN.Count [] = IndexOutOfRangeException /\
  IndexSetN.Count [5; 7; 1] = Returned (total_bit_count [5; 7; 1]) [5; 7; 1].
Proof.
  split.
  - by apply (IndexSetN_Count_counts_all_words []).
  - apply (IndexSetN_Count_counts_all_words [5; 7; 1]).
    + discriminate.
    + vm_compute. discriminate.
Defined.

(** X12. [IndexSetN::AndWhereGreaterThan] returns without touching the
    bitmap when the bitmap has fewer than one bit per row of the
    column. *)
Theorem AndWhereGreaterThan_skips_small_bitmap set value (mv : list Z) :
  Length set <= INT_MAX -> Length mv * 64 < Length set ->
  IndexSetN.AndWhereGreaterThan set value mv = Returned tt mv.
Proof. apply AndWhereGreaterThan_guarded. Qed.

Lemma AndWhereGreaterThan_skips_small_bitmap_witness :
  IndexSetN.AndWhereGreaterThan (replicate 65 200) 100 [0xFF] = Returned tt [0xFF].
Proof.
  apply (AndWhereGreaterThan_skips_small_bitmap (replicate 65 200) 100 [0xFF]).
  - change (Length (replicate 65 200)) with 65. unfold INT_MAX. lia.
  - change (Length (replicate 65 200)) with 65. change (Length [255]) with 1. lia.
Defined.

(** X13. [IndexSetN::AndWhereGreaterThan] on a non-empty column of
    bytes and a bitmap with at least one bit per row (its capacity in
    rows within [int]) returns, and the bit of every row [i] is then its
    old bit and [set[i] > value], the bytes compared as unsigned. *)
Theorem AndWhereGreaterThan_row_bits set value (mv : list Z) :
  Forall is_byte set -> is_byte value ->
  set <> [] -> Length set <= Length mv * 64 <= INT_MAX ->
  exists mv',
    IndexSetN.AndWhereGreaterThan set value mv = Returned tt mv' /\
    length mv' = length mv /\
    forall i, 0 <= i < Length set ->
      Z.testbit (mv' !!! Z.to_nat (i / 64)) (i mod 64)
      = Z.testbit (mv !!! Z.to_nat (i / 64)) (i mod 64) && (row set i >? value).
Proof.
  intros Hset Hvalue Hne Hcap.
  destruct (AndWhereGreaterThan_scans set value mv Hne Hcap) as [Hrun _].
  assert (Hlen : 0 <= Length set <= Length set) by (unfold Length; lia).
  assert (Hmv : words_for (Length set) <= Length mv).
  { unfold words_for.
    assert ((Length set + 63) / 64 < Length mv + 1) by (apply Z.div_lt_upper_bound; lia).
    lia. }
  destruct (Where_row_bits GreaterThan And Unsigned set (Length set) value mv Hlen Hmv)
    as (mv' & Hwhere & Hsize & Hbits).
  exists mv'. rewrite Hrun. unfold run.
  rewrite internal_scan_is_template_scan, Hwhere by lia.
  split; [done|]. split; [done|]. intros i Hi.
  rewrite Hbits, scan_bit_naive by (done || lia || by right). done.
Qed.

Lemma AndWhereGreaterThan_row_bits_witness :
  exists mv',
    IndexSetN.AndWhereGreaterThan [5; 200; 15] 7 [0xFF] = Returned tt mv' /\
    length mv' = length [0xFF] /\
    forall i, 0 <= i < Length [5; 200; 15] ->
      Z.testbit (mv' !!! Z.to_nat (i / 64)) (i mod 64)
      = Z.testbit ([0xFF] !!! Z.to_nat (i / 64)) (i mod 64) && (row [5; 200; 15] i >? 7).
Proof.
  apply (AndWhereGreaterThan_row_bits [5; 200; 15] 7 [0xFF]).
  - repeat constructor; unfold is_byte; lia.
  - unfold is_byte; lia.
  - discriminate.
  - change (Length [5; 200; 15]) with 3. change (Length [255]) with 1.
    unfold INT_MAX. lia.
Defined.

(** X14. The managed entry points end to end: for a non-empty column
    of bytes of at most [INT_MAX - 63] rows, [AndWhereGreaterThan] into a
    bitmap of exactly [ceil(rows / 64)] all-ones words followed by
    [Count] returns the number of rows whose byte is greater than the
    scalar. *)
Theorem AndWhereGreaterThan_then_Count set value :
  Forall is_byte set -> is_byte value ->
  set <> [] -> Length set <= INT_MAX - 63 ->
  exists mv',
    IndexSetN.AndWhereGreaterThan set value
      (replicate (Z.to_nat (words_for (Length set))) (2 ^ 64 - 1)) = Returned tt mv' /\
    IndexSetN.Count mv'
    = Returned (matching_rows GreaterThan Unsigned set value (length set)) mv'.
Proof.
  unfold INT_MAX. intros Hset Hvalue Hne Hmax.
  set (len := Length set). set (nw := Z.to_nat (words_for len)).
  assert (Hpos : 0 < len) by (subst len; destruct set; [done | unfold Length; simpl; lia]).
  destruct (words_for_cases len ltac:(lia)) as (Hq & Hr & Hdm & Hw0 & Hw1).
  assert (Hnw : 0 < words_for len <= len / 64 + 1 /\ len <= 64 * words_for len).
  { destruct (Z.eq_dec (len mod 64) 0); lia. }
  assert (Hsize : Length (replicate nw (2 ^ 64 - 1)) = words_for len).
  { unfold Length. rewrite length_replicate. subst nw. lia. }
  destruct (AndWhereGreaterThan_scans set value (replicate nw (2 ^ 64 - 1)) Hne)
    as [Hrun _].
  { fold len. rewrite Hsize. unfold INT_MAX. lia. }
  destruct (and_scan_represents GreaterThan set len value (replicate nw (2 ^ 64 - 1))
              (fun _ => true) Hset Hvalue) as (mv' & Hwhere & Hrep).
  { subst len. unfold Length. lia. } { done. }
  { intros i Hi. rewrite lookup_total_replicate_2.
    - apply is_word64_ones_testbit. apply Z.mod_pos_bound. lia.
    - subst nw. assert (i / 64 < words_for len) by (apply Z.div_lt_upper_bound; lia).
      assert (0 <= i / 64) by (apply Z.div_pos; lia). lia. }
  exists mv'. rewrite Hrun. unfold run. fold len.
  rewrite internal_scan_is_template_scan, Hwhere by lia. split; [done|].
  assert (Hsize' : Length mv' = words_for len).
  { destruct (Where_spec GreaterThan And Unsigned set len value
                ltac:(subst len; unfold Length; lia) (replicate nw (2 ^ 64 - 1))
                ltac:(lia)) as (mv'' & Hrun'' & Hlen'' & _).
    rewrite Hwhere in Hrun''. injection Hrun'' as <-.
    unfold Length in *. by rewrite Hlen''. }
  unfold IndexSetN.Count.
  destruct mv' as [|w mv']; [unfold Length in Hsize'; simpl in Hsize'; lia|].
  change ((w :: mv') !! 0%nat) with (Some w). cbv beta iota. unfold run.
  rewrite (count_represented (w :: mv') len
             (fun i => true && naive_compare GreaterThan Unsigned (row set i) value)).
  - f_equal. unfold matching_rows. subst len. unfold Length. rewrite Nat2Z.id.
    apply count_below_ext. intros i Hi. done.
  - unfold INT_MAX. lia.
  - lia.
  - exact Hrep.
Qed.

Lemma AndWhereGreaterThan_then_Count_witness :
  exists mv',
    IndexSetN.AndWhereGreaterThan [5; 200; 15] 7
      (replicate (Z.to_nat (words_for (Length [5; 200; 15]))) (2 ^ 64 - 1)) = Returned tt mv' /\
    IndexSetN.Count mv'
    = Returned (matching_rows GreaterThan Unsigned [5; 200; 15] 7 (length [5; 200; 15])) mv'.
Proof.
  apply (AndWhereGreaterThan_then_Count [5; 200; 15] 7).
  - repeat constructor; unfold is_byte; lia.
  - unfold is_byte; lia.
  - discriminate.
  - change (Length [5; 200; 15]) with 3. unfold INT_MAX. lia.
Defined.

(** * What the scan reads *)

Lemma take_agree (n m : nat) (l1 l2 : list Z) :
  (n <= m)%nat -> take m l1 = take m l2 -> take n l1 = take n l2.
Proof.
  intros Hnm Heq.
  rewrite <- (Nat.min_l n m Hnm), <- !take_take. by rewrite Heq.
Qed.

Lemma block_result_agree cOp sign (set1 set2 : list Z) len value i :
  0 <= i -> i + 64 <= len -> len <= Length set1 -> len <= Length set2 ->
  take (Z.to_nat len) set1 = take (Z.to_nat len) set2 ->
  block_result cOp sign set1 value i = block_result cOp sign set2 value i.
Proof.
  intros Hi Hlen H1 H2 Heq. unfold block_result.
  rewrite !loadu_in_range by lia.
  assert (Hblock : forall k, 0 <= k -> k + 32 <= len ->
            take 32 (drop (Z.to_nat k) set1) = take 32 (drop (Z.to_nat k) set2)).
  { intros k Hk Hk'. rewrite !take_drop_commute. f_equal.
    apply (take_agree _ (Z.to_nat len)); [lia | done]. }
  by rewrite (Hblock i), (Hblock (i + 32)) by lia.
Qed.

Lemma index_agree (set1 set2 : list Z) len i :
  i < len -> take (Z.to_nat len) set1 = take (Z.to_nat len) set2 ->
  index set1 i = index set2 i.
Proof.
  intros Hi Heq. unfold index. destruct (Z.leb_spec 0 i); [|done].
  rewrite <- (lookup_take_lt set1 (Z.to_nat len)), <- (lookup_take_lt set2 (Z.to_nat len))
    by lia.
  by rewrite Heq.
Qed.

Lemma Where_blocks_agree cOp bOp sign (set1 set2 : list Z) len value (fuel : nat) :
  0 <= len -> len <= Length set1 -> len <= Length set2 ->
  take (Z.to_nat len) set1 = take (Z.to_nat len) set2 ->
  forall (k : Z) (mv : list Z), 0 <= k ->
    Where_blocks cOp bOp sign set1 len value fuel (64 * k) mv
    = Where_blocks cOp bOp sign set2 len value fuel (64 * k) mv.
Proof.
  intros Hlen H1 H2 Heq.
  destruct (words_for_cases len Hlen) as (Hq & Hr & Hdm & _ & _).
  induction fuel as [|fuel IH]; intros k mv Hk; [done|].
  cbn [Where_blocks]. rewrite blockLength_div.
  destruct (Z.ltb_spec (64 * k) (64 * (len / 64))); [|done].
  unfold bind.
  rewrite (block_result_agree cOp sign set1 set2 len value (64 * k)) by (done || lia).
  destruct (lift (block_result cOp sign set2 value (64 * k)) mv) as [[R mv1]|]; [|done].
  destruct (combine bOp (64 * k) R mv1) as [[[] mv2]|]; [|done].
  replace (64 * k + 64) with (64 * (k + 1)) by lia. apply IH. lia.
Qed.

Lemma Where_tail_agree cOp (set1 set2 : list Z) len value (fuel : nat) :
  take (Z.to_nat len) set1 = take (Z.to_nat len) set2 ->
  forall i r,
    Where_tail cOp set1 len value fuel i r = Where_tail cOp set2 len value fuel i r.
Proof.
  intros Heq. induction fuel as [|fuel IH]; intros i r; [done|].
  cbn [Where_tail]. destruct (Z.ltb_spec i len); [|done].
  rewrite (index_agree set1 set2 len i) by done.
  destruct (index set2 i) as [b|]; [|done]. simpl. apply IH.
Qed.

(** X15. A scan of [len] rows reads only the first [len] bytes of the
    column buffer: on two buffers that agree on these bytes it has the
    same effect on every bitmap. *)
Theorem Where_reads_first_len_bytes cOp bOp sign (set1 set2 : list Z) len value
    (mv : list Z) :
  0 <= len -> len <= Length set1 -> len <= Length set2 ->
  take (Z.to_nat len) set1 = take (Z.to_nat len) set2 ->
  Where cOp bOp sign set1 len value mv = Where cOp bOp sign set2 len value mv.
Proof.
  intros Hlen H1 H2 Heq. unfold Where. cbv zeta. unfold bind.
  pose proof (Where_blocks_agree cOp bOp sign set1 set2 len value (S (Z.to_nat len))
                Hlen H1 H2 Heq 0 mv ltac:(lia)) as Hblocks.
  change (64 * 0) with 0 in Hblocks. rewrite Hblocks.
  destruct (Where_blocks cOp bOp sign set2 len value (S (Z.to_nat len)) 0 mv)
    as [[i mv1]|]; [|done].
  destruct (Z.land len 63 >? 0); [|done].
  unfold lift. by rewrite (Where_tail_agree cOp set1 set2).
Qed.

Lemma Where_reads_first_len_bytes_witness :
  Where GreaterThan And Unsigned [5; 200; 15; 1; 2] 3 7 [0xFF]
  = Where GreaterThan And Unsigned [5; 200; 15; 250] 3 7 [0xFF].
Proof.
  apply (Where_reads_first_len_bytes GreaterThan And Unsigned
           [5; 200; 15; 1; 2] [5; 200; 15; 250] 3 7 [0xFF]).
  - lia.
  - change (Length [5; 200; 15; 1; 2]) with 5. lia.
  - change (Length [5; 200; 15; 250]) with 4. lia.
  - reflexivity.
Defined.

(** * Negative lengths *)

(** X16. For a negative [length] neither function reads a row. When
    [length] is a multiple of 64 both leave the bitmap as it is.
    Otherwise [Where] combines an empty result word into word 0 of the
    bitmap, which [And] clears, while [AndWhereGreaterThanInternal]
    indexes the bitmap at the negative word [length >> 6], outside the
    bitmap. *)
Theorem scans_with_negative_length cOp sign set len value (B : Z) (mv : list Z) :
  len < 0 ->
  (len mod 64 = 0 ->
   Where cOp And sign set len value mv = Some (tt, mv) /\
   AndWhereGreaterThanInternal set len value mv = Some (tt, mv)) /\
  (0 < len mod 64 ->
   Where cOp And sign set len value (B :: mv) = Some (tt, 0 :: mv) /\
   AndWhereGreaterThanInternal set len value (B :: mv) = None).
Proof.
  intros Hneg.
  pose proof (Z.div_mod len 64 ltac:(lia)) as Hdm.
  pose proof (Z.mod_pos_bound len 64 ltac:(lia)) as Hmod.
  assert (Hbl : (0 <? blockLength len) = false).
  { rewrite blockLength_div. apply Z.ltb_ge. lia. }
  assert (Hbl' : (0 <? blockLength' len) = false) by exact Hbl.
  assert (Hlt : (0 <? len) = false) by (apply Z.ltb_ge; lia).
  unfold Where, AndWhereGreaterThanInternal. cbv zeta.
  replace (Z.to_nat len) with 0%nat by lia.
  cbn [Where_blocks AndWhereGreaterThan_blocks]. rewrite Hbl, Hbl'.
  unfold bind, ret, lift. cbn [Where_tail AndWhereGreaterThan_tail].
  rewrite Hlt, land_63, Z.gtb_ltb.
  split; intros Hcase.
  - rewrite Hcase. done.
  - destruct (Z.ltb_spec 0 (len mod 64)); [|lia]. split.
    + unfold combine, bind, load, store, lift. rewrite shiftr_6.
      change (index (B :: mv) (0 / 64)) with (Some B). cbv beta iota.
      by rewrite Z.land_0_r.
    + unfold load, lift, index. rewrite shiftr_6.
      assert (len / 64 < 0) by (apply Z.div_lt_upper_bound; lia).
      by destruct (Z.leb_spec 0 (len / 64)); [lia|].
Qed.

Lemma scans_with_negative_length_witness :
  (-1 mod 64 = 0 ->
   Where Equals And Signed [] (-1) 0 [9] = Some (tt, [9]) /\
   AndWhereGreaterThanInternal [] (-1) 0 [9] = Some (tt, [9])) /\
  (0 < -1 mod 64 ->
   Where Equals And Signed [] (-1) 0 (7 :: [9]) = Some (tt, 0 :: [9]) /\
   AndWhereGreaterThanInternal [] (-1) 0 (7 :: [9]) = None).
Proof.
  apply (scans_with_negative_length Equals Signed [] (-1) 0 7 [9]). lia.
Defined.

(** * Counting after a scan *)

(** X17. Scan, then count: for a column of bytes of at most [INT_MAX]
    rows, a scan in [Unsigned] mode Or-combined into an all-zero bitmap,
    followed by [CountInternal] over the whole bitmap, returns the number
    of rows that match under the naive comparison, for each of the six
    operators. *)
Theorem CountInternal_after_Where_into_empty cOp set len value (nw : nat) :
  Forall is_byte set -> is_byte value ->
  0 <= len <= Length set -> len <= INT_MAX -> words_for len <= Z.of_nat nw ->
  exists mv',
    Where cOp Or Unsigned set len value (replicate nw 0) = Some (tt, mv') /\
    CountInternal (Z.of_nat nw) mv'
    = Some (matching_rows cOp Unsigned set value (Z.to_nat len), mv').
Proof.
  intros Hset Hvalue Hlen Hmax Hnw.
  destruct (words_for_cases len ltac:(lia)) as (Hq & Hr & Hdm & Hw0 & Hw1).
  assert (Hsize : Length (replicate nw 0) = Z.of_nat nw).
  { unfold Length. by rewrite length_replicate. }
  destruct (scan_represents cOp Or set len value (replicate nw 0) (fun _ => false)
              Hset Hvalue Hlen ltac:(lia)) as (mv' & Hrun & Hrep).
  { intros w j Hw Hj. rewrite length_replicate in Hw.
    rewrite lookup_total_replicate_2, Z.bits_0 by done. by rewrite andb_false_r. }
  exists mv'. split; [done|].
  assert (Hsize' : Length mv' = Z.of_nat nw).
  { destruct (Where_spec cOp Or Unsigned set len value Hlen (replicate nw 0) ltac:(lia))
      as (mv'' & Hrun'' & Hlen'' & _).
    rewrite Hrun in Hrun''. injection Hrun'' as <-.
    unfold Length in *. by rewrite Hlen''. }
  rewrite <- Hsize'.
  rewrite (count_represented mv' len _ ltac:(lia) ltac:(destruct (Z.eq_dec (len mod 64) 0); lia) Hrep).
  done.
Qed.

Lemma CountInternal_after_Where_into_empty_witness :
  exists mv',
    Where LessThanOrEqual Or Unsigned [5; 200; 15] 3 15 (replicate 2 0) = Some (tt, mv') /\
    CountInternal (Z.of_nat 2) mv'
    = Some (matching_rows LessThanOrEqual Unsigned [5; 200; 15] 15 (Z.to_nat 3), mv').
Proof.
  apply (CountInternal_after_Where_into_empty LessThanOrEqual [5; 200; 15] 3 15 2).
  - repeat constructor; unfold is_byte; lia.
  - unfold is_byte; lia.
  - change (Length [5; 200; 15]) with 3. lia.
  - unfold INT_MAX. lia.
  - change (words_for 3) with 1. lia.
Defined.

(** * Signedness and the equality operators *)

Lemma word64_bits_inj a b :
  is_word64 a -> is_word64 b ->
  (forall j, 0 <= j < 64 -> Z.testbit a j = Z.testbit b j) -> a = b.
Proof.
  unfold is_word64. intros Ha Hb Hbits. apply Z.bits_inj'. intros j Hj.
  destruct (Z.lt_ge_cases j 64); [apply Hbits; lia|].
  rewrite <- (Z.mod_small a (2 ^ 64)), <- (Z.mod_small b (2 ^ 64)) by lia.
  by rewrite !Z.mod_pow2_bits_high by lia.
Qed.

Lemma result_word_equality_sign cOp set len value (w : nat) :
  cOp = Equals \/ cOp = NotEquals ->
  Forall is_byte set -> is_byte value -> 0 <= len <= Length set ->
  result_word cOp Signed set len value w = result_word cOp Unsigned set len value w.
Proof.
  intros HcOp Hset Hvalue Hlen. unfold result_word.
  destruct (words_for_cases len ltac:(lia)) as (Hq & Hr & Hdm & _ & _).
  destruct (decide (Z.of_nat w < len / 64)) as [Hw|Hw]; [|done].
  destruct (block_result_bits cOp Signed set value (64 * Z.of_nat w))
    as (R1 & -> & Hword1 & Hbits1); [lia | lia |].
  destruct (block_result_bits cOp Unsigned set value (64 * Z.of_nat w))
    as (R2 & -> & Hword2 & Hbits2); [lia | lia |].
  f_equal. apply word64_bits_inj; [done | done |]. intros j Hj.
  assert (Hb : is_byte (row set (64 * Z.of_nat w + j))) by (apply row_is_byte; [done | lia]).
  rewrite Hbits1, Hbits2, !lane_compare_naive by done.
  by apply naive_compare_equality_sign.
Qed.

(** X18. [Equals] and [NotEquals] do not depend on the signedness
    mode: on a column of bytes the [Signed] and the [Unsigned] scan have
    the same effect on the bitmap. *)
Theorem Where_equality_ignores_signedness cOp bOp set len value (mv : list Z) :
  cOp = Equals \/ cOp = NotEquals ->
  Forall is_byte set -> is_byte value ->
  0 <= len <= Length set -> words_for len <= Length mv ->
  Where cOp bOp Signed set len value mv = Where cOp bOp Unsigned set len value mv.
Proof.
  intros HcOp Hset Hvalue Hlen Hmv.
  destruct (Where_wordwise cOp bOp Signed set len value mv Hlen Hmv)
    as (mv1 & -> & Hsize1 & Hword1).
  destruct (Where_wordwise cOp bOp Unsigned set len value mv Hlen Hmv)
    as (mv2 & -> & Hsize2 & Hword2).
  do 2 f_equal. apply list_eq_total; [lia|]. intros w.
  by rewrite Hword1, Hword2, result_word_equality_sign.
Qed.

Lemma Where_equality_ignores_signedness_witness :
  Where NotEquals AndNot Signed [5; 200; 15] 3 200 [0xFF]
  = Where NotEquals AndNot Unsigned [5; 200; 15] 3 200 [0xFF].
Proof.
  apply (Where_equality_ignores_signedness NotEquals AndNot [5; 200; 15] 3 200 [0xFF]).
  - by right.
  - repeat constructor; unfold is_byte; lia.
  - unfold is_byte; lia.
  - change (Length [5; 200; 15]) with 3. lia.
  - change (words_for 3) with 1. change (Length [255]) with 1. lia.
Defined.

(** * Memory safety of the managed scan *)

Lemma to_int32_le x : 0 <= x -> to_int32 x <= x.
Proof.
  intros Hx. unfold to_int32. cbv zeta.
  pose proof (Z.mod_le x (2 ^ 32) Hx ltac:(lia)).
  destruct (x mod 2 ^ 32 <? 2 ^ 31); lia.
Qed.

(** X19. The capacity guard of [IndexSetN::AndWhereGreaterThan] keeps
    the unmanaged scan inside both arrays: for every column of at most
    [INT_MAX] bytes and every bitmap, the call either returns with a
    bitmap of the same size or raises [IndexOutOfRangeException]; it is
    never undefined. *)
Theorem AndWhereGreaterThan_never_out_of_bounds set value (mv : list Z) :
  Length set <= INT_MAX ->
  (exists mv', IndexSetN.AndWhereGreaterThan set value mv = Returned tt mv' /\
               length mv' = length mv) \/
  IndexSetN.AndWhereGreaterThan set value mv = IndexOutOfRangeException.
Proof.
  unfold INT_MAX. intros Hmax. unfold IndexSetN.AndWhereGreaterThan.
  assert (Hmv : 0 <= Length mv * 64) by (unfold Length; lia).
  destruct (Z.ltb_spec (to_int32 (Length mv * 64)) (Length set)) as [Hguard|Hguard].
  { left. by exists mv. }
  pose proof (to_int32_le (Length mv * 64) Hmv) as Hle.
  destruct set as [|b set]; [by right|].
  destruct mv as [|w mv]; [by right|].
  change ((b :: set) !! 0%nat) with (Some b). change ((w :: mv) !! 0%nat) with (Some w).
  cbv beta iota. left. unfold run.
  assert (Hlen : 0 <= Length (b :: set) <= Length (b :: set)) by (unfold Length; lia).
  rewrite internal_scan_is_template_scan by lia.
  destruct (Where_spec GreaterThan And Unsigned (b :: set) (Length (b :: set)) value
              Hlen (w :: mv)) as (mv' & -> & Hsize & _).
  { unfold words_for.
    assert ((Length (b :: set) + 63) / 64 < Length (w :: mv) + 1)
      by (apply Z.div_lt_upper_bound; lia).
    lia. }
  by exists mv'.
Qed.

Lemma AndWhereGreaterThan_never_out_of_bounds_witness :
  (exists mv', IndexSetN.AndWhereGreaterThan [5; 200; 15] 7 [0xFF; 3] = Returned tt mv' /\
               length mv' = length [0xFF; 3]) \/
  IndexSetN.AndWhereGreaterThan [5; 200; 15] 7 [0xFF; 3] = IndexOutOfRangeException.
Proof.
  apply (AndWhereGreaterThan_never_out_of_bounds [5; 200; 15] 7 [0xFF; 3]).
  change (Length [5; 200; 15]) with 3. unfold INT_MAX. lia.
Defined.

(** * The two greater-than entry points *)

(** X20. The managed and the exported unmanaged greater-than scans
    agree: for a non-empty column and a bitmap with at least one bit per
    row (its capacity in rows within [int]),
    [IndexSetN::AndWhereGreaterThan] has the effect of
    [CompareToVector::WhereGreaterThan] on the whole column, whatever
    the two flags. *)
Theorem AndWhereGreaterThan_is_WhereGreaterThan (positive and : bool) set value
    (mv : list Z) :
  set <> [] -> Length set <= Length mv * 64 <= INT_MAX ->
  IndexSetN.AndWhereGreaterThan set value mv
  = run (CompareToVector.WhereGreaterThan positive and set (Length set) value) mv.
Proof.
  intros Hne Hcap.
  destruct (AndWhereGreaterThan_scans set value mv Hne Hcap) as [-> _].
  unfold run, CompareToVector.WhereGreaterThan.
  by rewrite internal_scan_is_template_scan by (unfold Length; lia).
Qed.

Lemma AndWhereGreaterThan_is_WhereGreaterThan_witness :
  IndexSetN.AndWhereGreaterThan [5; 200; 15] 7 [0xFF]
  = run (CompareToVector.WhereGreaterThan true false [5; 200; 15]
           (Length [5; 200; 15]) 7) [0xFF].
Proof.
  apply (AndWhereGreaterThan_is_WhereGreaterThan true false [5; 200; 15] 7 [0xFF]).
  - discriminate.
  - change (Length [5; 200; 15]) with 3. change (Length [255]) with 1.
    unfold INT_MAX. lia.
Defined.
